(** * Tactical radio signal processor: the DSP kernel of
      [src/signal_processor.cpp], embedded in Rocq.

    The five public functions of namespace [signal_processor] are translated
    one by one.  The data is the data of the C++ code:

    - [double] is IEEE 754 binary64, the primitive [float] of Rocq, whose
      operations are specified by [SpecFloat] ([Prim2SF], [add_spec], ...);
    - [int] is a 32-bit two's complement integer, a [Z] between [INT_MIN]
      and [INT_MAX]; the conversions from [size_t] wrap ([wrap_int]);
      signed arithmetic on loop indices is exact, since signed overflow is
      undefined in C++ and the theorems bound the sizes so that none occurs;
    - [std::vector<T>] is [list T], [std::complex<double>] a pair;
    - a function that can throw or run into undefined behaviour returns an
      [outcome];
    - what the code takes from outside itself ([<cmath>], [<random>], FFTW)
      is a [Variable] of the section. *)

From Stdlib Require Import ZArith List Lia Bool Floats.
Import ListNotations.

Set Warnings "-inexact-float".
Local Open Scope Z_scope.

(** ** Outcomes *)

Inductive exception : Type :=
| invalid_argument   (* std::invalid_argument *)
| length_error.      (* std::length_error *)

Inductive outcome (A : Type) : Type :=
| Ok (a : A)              (* the call returns [a] *)
| Throw (e : exception)   (* the call throws [e] *)
| Undefined.              (* the call has undefined behaviour *)

Arguments Ok {A} a.
Arguments Throw {A} e.
Arguments Undefined {A}.

Definition bind {A B : Type} (m : outcome A) (k : A -> outcome B) : outcome B :=
  match m with
  | Ok a => k a
  | Throw e => Throw e
  | Undefined => Undefined
  end.

Notation "x <- m ;; k" := (bind m (fun x => k))
  (at level 61, m at next level, right associativity).

(** ** Scalars *)

Definition double : Type := float.

(** [std::complex<double>]: real part, imaginary part. *)
Definition complex : Type := (double * double)%type.

Definition INT_MAX : Z := 2147483647.
Definition INT_MIN : Z := -2147483648.

(** Conversion of an integer value to [int]: reduction modulo 2^32 into
    [INT_MIN .. INT_MAX]. *)
Definition wrap_int (z : Z) : Z := (z + 2147483648) mod 4294967296 - 2147483648.

(** [int n = v.size();] *)
Definition int_of_size_t (n : nat) : Z := wrap_int (Z.of_nat n).

(** Conversion [int -> double]: exact, every [int] is a binary64 value. *)
Definition double_of_int (z : Z) : double :=
  SF2Prim (binary_normalize prec emax z 0 false).

(** The integer part of a finite double, rounded toward zero. *)
Definition double_trunc (x : double) : option Z :=
  match Prim2SF x with
  | S754_zero _ => Some 0
  | S754_finite s m e =>
      let t := Z.shiftl (Z.pos m) e in
      Some (if s then - t else t)
  | S754_infinity _ | S754_nan => None
  end.

(** [static_cast<int>(x)]: truncation toward zero; the behaviour is undefined
    when the truncated value is not an [int] (NaN and infinities included),
    which is [None] here. *)
Definition int_of_double (x : double) : option Z :=
  match double_trunc x with
  | Some t => if (INT_MIN <=? t) && (t <=? INT_MAX) then Some t else None
  | None => None
  end.

(** [M_PI] of <cmath>: 3.14159265358979323846 as a binary64 value. *)
Definition M_PI : double := 0x1.921fb54442d18p+1%float.

(** ** Vectors and loops *)

(** [std::vector<T> v(n)] and [std::vector<T> v(n, fill)] with an [int] count:
    the count is converted to [size_t], so a negative one becomes a value above
    [max_size()] and the constructor throws [std::length_error]. *)
Definition vector_new {A : Type} (n : Z) (fill : A) : outcome (list A) :=
  if n <? 0 then Throw length_error else Ok (repeat fill (Z.to_nat n)).

(** [v[i]] read.  Every read of the code is guarded by its loop bounds. *)
Definition vec_get {A : Type} (d : A) (v : list A) (i : Z) : A :=
  nth (Z.to_nat i) v d.

(** [v[i] = x].  Every write of the code is inside the vector. *)
Fixpoint set_nth {A : Type} (v : list A) (n : nat) (x : A) : list A :=
  match v, n with
  | [], _ => []
  | _ :: t, O => x :: t
  | h :: t, S k => h :: set_nth t k x
  end.

Definition vec_set {A : Type} (v : list A) (i : Z) (x : A) : list A :=
  if i <? 0 then v else set_nth v (Z.to_nat i) x.

(** [for (int i = lo; i < hi; ++i) s = body i s]. *)
Fixpoint for_from {S : Type} (steps : nat) (i : Z) (body : Z -> S -> S) (s : S) : S :=
  match steps with
  | O => s
  | Datatypes.S k => for_from k (i + 1) body (body i s)
  end.

Definition for_loop {S : Type} (lo hi : Z) (body : Z -> S -> S) (s : S) : S :=
  for_from (Z.to_nat (hi - lo)) lo body s.

(** [for (double c : v) s = body c s]. *)
Definition for_each {A S : Type} (v : list A) (body : A -> S -> S) (s : S) : S :=
  fold_left (fun acc c => body c acc) v s.

(** The indices [lo, lo+1, ..., lo+k-1] a loop of [k] steps visits. *)
Fixpoint zrange (lo : Z) (k : nat) : list Z :=
  match k with
  | O => []
  | S k' => lo :: zrange (lo + 1) k'
  end.

(** A loop that stores [f i] in cell [i] for each index it visits. *)
Definition fill_loop {A : Type} (f : Z -> A) (k : nat) (lo : Z) (v : list A) : list A :=
  for_from k lo (fun i v => vec_set v i (f i)) v.

Section SignalProcessor.

(** *** The collaborators *)

(** <cmath>. *)
Variables sin cos log10 : double -> double.

(** [std::abs] on [std::complex<double>]. *)
Variable cabs : complex -> double.

(** [noise_dist(gen)]: the [i]-th draw of
    [std::normal_distribution<double>(0.0, stddev)] in a call. *)
Variable noise_dist : double -> Z -> double.

(** FFTW: [fftw_out input i] is the content of [out[i]] once the plan
    [fftw_plan_dft_r2c_1d(N, in, out, FFTW_ESTIMATE)] has been executed on
    the copy [in] of [input]. *)
Variable fftw_out : list double -> Z -> complex.

(** *** generate_test_signal *)

(** The value the generation loop stores in [signal[i]]. *)
Definition test_sample (frequency sample_rate noise_amplitude : double) (i : Z)
    : double :=
  (sin (2 * M_PI * frequency * (double_of_int i / sample_rate))
   + noise_dist noise_amplitude i)%float.

Definition generate_test_signal
    (frequency sample_rate duration noise_amplitude : double)
    : outcome (list double) :=
  match int_of_double (sample_rate * duration)%float with
  | None => Undefined
  | Some num_samples =>
      signal <- vector_new num_samples 0%float ;;
      Ok (for_loop 0 num_samples
            (fun i signal =>
               let t := (double_of_int i / sample_rate)%float in
               let sine_value := sin (2 * M_PI * frequency * t)%float in
               let noise := noise_dist noise_amplitude i in
               vec_set signal i (sine_value + noise)%float)
            signal)
  end.

(** *** apply_lowpass_filter *)

(** Step 1, the windowed-sinc design loop. *)
Definition design_coeffs (cutoff_freq : double) (num_taps center : Z)
    (filter_coeffs : list double) : list double :=
  for_loop 0 num_taps
    (fun i filter_coeffs =>
       let offset := i - center in
       if offset =? 0 then
         vec_set filter_coeffs i (2 * cutoff_freq)%float
       else
         let sinc_value :=
           (sin (2 * M_PI * cutoff_freq * double_of_int offset)
            / (M_PI * double_of_int offset))%float in
         let window :=
           (0.54 - 0.46 * cos (2 * M_PI * double_of_int i
                               / double_of_int (num_taps - 1)))%float in
         vec_set filter_coeffs i (sinc_value * window)%float)
    filter_coeffs.

(** The value the design loop stores in [filter_coeffs[i]]. *)
Definition raw_coeff (cutoff_freq : double) (num_taps center i : Z) : double :=
  let offset := i - center in
  if offset =? 0 then (2 * cutoff_freq)%float
  else
    (sin (2 * M_PI * cutoff_freq * double_of_int offset)
     / (M_PI * double_of_int offset)
     * (0.54 - 0.46 * cos (2 * M_PI * double_of_int i
                           / double_of_int (num_taps - 1))))%float.

(** The two normalisation loops. *)
Definition normalize_coeffs (filter_coeffs : list double) : list double :=
  let sum := for_each filter_coeffs (fun coeff sum => (sum + coeff)%float) 0%float in
  map (fun coeff => (coeff / sum)%float) filter_coeffs.

(** The multiply and accumulate loop for output sample [i]. *)
Definition mac (input filter_coeffs : list double)
    (num_taps center input_size i : Z) : double :=
  for_loop 0 num_taps
    (fun j sum =>
       let input_idx := i - center + j in
       if (0 <=? input_idx) && (input_idx <? input_size) then
         (sum + vec_get 0%float input input_idx
                * vec_get 0%float filter_coeffs j)%float
       else sum)
    0%float.

(** Step 2, the convolution loop. *)
Definition convolve (input filter_coeffs : list double)
    (num_taps center input_size : Z) (output : list double) : list double :=
  for_loop 0 input_size
    (fun i output =>
       vec_set output i (mac input filter_coeffs num_taps center input_size i))
    output.

Definition filter_design (cutoff_freq : double) (num_taps : Z)
    : outcome (list double) :=
  filter_coeffs <- vector_new num_taps 0%float ;;
  let center := Z.quot num_taps 2 in
  Ok (normalize_coeffs (design_coeffs cutoff_freq num_taps center filter_coeffs)).

Definition apply_lowpass_filter (input : list double) (cutoff_freq : double)
    (num_taps : Z) : outcome (list double) :=
  filter_coeffs <- filter_design cutoff_freq num_taps ;;
  let center := Z.quot num_taps 2 in
  let input_size := int_of_size_t (length input) in
  output <- vector_new input_size 0%float ;;
  Ok (convolve input filter_coeffs num_taps center input_size output).

(** *** compute_fft *)

(** [out[i]] where [out = fftw_alloc_complex(N)]: the buffer has [N] cells. *)
Definition read_out (input : list double) (N i : Z) : outcome complex :=
  if (0 <=? i) && (i <? N) then Ok (fftw_out input i) else Undefined.

Definition compute_fft (input : list double) : outcome (list complex) :=
  let N := int_of_size_t (length input) in
  result <- vector_new (Z.quot N 2 + 1) (0%float, 0%float) ;;
  for_loop 0 (Z.quot N 2 + 1)
    (fun i acc =>
       result <- acc ;;
       bin <- read_out input N i ;;
       Ok (vec_set result i (fst bin, snd bin)))
    (Ok result).

(** *** calculate_snr *)

Definition signal_power (signal : list double) (N : Z) : double :=
  for_loop 0 N
    (fun i signal_power =>
       (signal_power + vec_get 0 signal i * vec_get 0 signal i)%float)
    0%float.

Definition noise_power (signal noisy : list double) (N : Z) : double :=
  for_loop 0 N
    (fun i noise_power =>
       let noise := (vec_get 0 noisy i - vec_get 0 signal i)%float in
       (noise_power + noise * noise)%float)
    0%float.

Definition calculate_snr (signal noisy : list double) : outcome double :=
  if negb (length signal =? length noisy)%nat then Throw invalid_argument
  else
    let N := int_of_size_t (length signal) in
    let signal_power := signal_power signal N in
    let noise_power := noise_power signal noisy N in
    if (noise_power =? 0)%float then Ok 100%float
    else
      let snr_db := (10 * log10 (signal_power / noise_power))%float in
      Ok snr_db.

(** *** find_peak_frequency *)

(** The scan for the bin of maximum magnitude: the state is
    [(max_bin, max_magnitude)]. *)
Definition peak_scan (fft_output : list complex) : Z * double :=
  for_loop 0 (Z.of_nat (length fft_output))
    (fun i st =>
       let magnitude := cabs (vec_get (0%float, 0%float) fft_output i) in
       if (snd st <? magnitude)%float then (wrap_int i, magnitude) else st)
    (0, 0%float).

Definition find_peak_frequency (fft_output : list complex)
    (sample_rate : double) : double :=
  match fft_output with
  | [] => 0%float
  | _ :: _ =>
      let max_bin := fst (peak_scan fft_output) in
      let total_bins := wrap_int ((Z.of_nat (length fft_output) - 1) * 2) in
      let frequency :=
        (double_of_int max_bin * sample_rate / double_of_int total_bins)%float in
      frequency
  end.

End SignalProcessor.

(** ** Auxiliary notions of the statements *)

(** [round(x)], the integer nearest to a finite double, a half going away
    from zero: the rounding the specification names for the sample count. *)
Definition double_round (x : double) : option Z :=
  match Prim2SF x with
  | S754_zero _ => Some 0
  | S754_finite s m e =>
      let r := (Z.shiftl (Z.pos m) (e + 1) + 1) / 2 in
      Some (if s then - r else r)
  | S754_infinity _ | S754_nan => None
  end.

(** Stage B in the words of the specification: the term of tap [j] in output
    sample [n] is [coeff[j] * input[n - center + j]], and an input index
    outside the signal contributes zero. *)
Definition padded_term (input coeff : list double) (center n j : Z) : double :=
  let idx := n - center + j in
  if (0 <=? idx) && (idx <? Z.of_nat (length input))
  then (vec_get 0 coeff j * vec_get 0 input idx)%float
  else 0%float.

(** The sum of the terms over [j] in [[0, num_taps)], with
    [center = num_taps / 2]. *)
Definition conv_sum (input coeff : list double) (num_taps n : Z) : double :=
  fold_left
    (fun acc j => (acc + padded_term input coeff (num_taps / 2) n j)%float)
    (zrange 0 (Z.to_nat num_taps)) 0%float.

(** [sum(signal[i]^2)]. *)
Definition sum_squares (signal : list double) : double :=
  fold_left (fun acc s => (acc + s * s)%float) signal 0%float.

(** [sum((noisy[i] - signal[i])^2)]. *)
Definition sum_squared_differences (signal noisy : list double) : double :=
  fold_left (fun acc p => (acc + (snd p - fst p) * (snd p - fst p))%float)
            (combine signal noisy) 0%float.

(** Bin [p] is the lowest index attaining the maximum magnitude: no bin has a
    larger magnitude, and every bin before [p] has a smaller one. *)
Definition is_peak_bin (cabs : complex -> double) (fft_output : list complex)
    (p : nat) : Prop :=
  let magnitude j := cabs (nth j fft_output (0%float, 0%float)) in
  (p < length fft_output)%nat /\
  (forall j, (j < length fft_output)%nat ->
             (magnitude j <=? magnitude p)%float = true) /\
  (forall j, (j < p)%nat -> (magnitude j <? magnitude p)%float = true).

(** [sqrt(re^2 + im^2)] computed as written, a [std::abs] to run examples
    with. *)
Definition naive_abs (c : complex) : double :=
  sqrt (fst c * fst c + snd c * snd c)%float.

(** ** The order and the signs of doubles *)

(** A key whose lexicographic order is the order of the non-NaN doubles. *)
Definition SFkey (x : spec_float) : Z * Z * Z :=
  match x with
  | S754_zero _ => (0, 0, 0)
  | S754_infinity false => (2, 0, 0)
  | S754_infinity true => (-2, 0, 0)
  | S754_finite false m e => (1, e, Z.pos m)
  | S754_finite true m e => (-1, - e, Z.neg m)
  | S754_nan => (0, 0, 0)
  end.

Definition lex_compare (k k' : Z * Z * Z) : comparison :=
  let '(a, b, c) := k in
  let '(a', b', c') := k' in
  match a ?= a' with
  | Eq => match b ?= b' with Eq => c ?= c' | r => r end
  | r => r
  end.

Definition lex_lt (k k' : Z * Z * Z) : Prop :=
  let '(a, b, c) := k in
  let '(a', b', c') := k' in
  a < a' \/ (a = a' /\ (b < b' \/ (b = b' /\ c < c'))).

Definition lex_le (k k' : Z * Z * Z) : Prop := lex_lt k k' \/ k = k'.

Definition not_nan (x : double) : Prop := Prim2SF x <> S754_nan.

Definition key (x : double) : Z * Z * Z := SFkey (Prim2SF x).

Definition is_neg_zero (x : double) : bool :=
  match Prim2SF x with S754_zero true => true | _ => false end.




(** * Loops and vectors *)

(** Case analysis on the boolean comparisons of a goal. *)
Ltac case_bool :=
  match goal with
  | |- context [?a <=? ?b] => destruct (Z.leb_spec a b)
  | |- context [?a <? ?b] => destruct (Z.ltb_spec a b)
  | |- context [?a =? ?b] => destruct (Z.eqb_spec a b)
  | |- context [(?a =? ?b)%nat] => destruct (Nat.eqb_spec a b)
  | |- context [(?a <? ?b)%nat] => destruct (Nat.ltb_spec a b)
  | |- context [(?a <=? ?b)%nat] => destruct (Nat.leb_spec a b)
  end.

Ltac case_bools := repeat (case_bool; cbn [andb orb negb]).

Section LoopFacts.

Context {A : Type}.

Lemma zrange_length lo k : length (zrange lo k) = k.
Proof. revert lo; induction k; simpl; intros; [reflexivity | now rewrite IHk]. Qed.

Lemma zrange_nth lo k n d :
  (n < k)%nat -> nth n (zrange lo k) d = lo + Z.of_nat n.
Proof.
  revert lo n; induction k; intros lo n Hn; [lia|].
  destruct n; simpl; [lia|].
  rewrite IHk by lia. lia.
Qed.

Lemma for_from_fold {S : Type} k lo (body : Z -> S -> S) s :
  for_from k lo body s = fold_left (fun acc i => body i acc) (zrange lo k) s.
Proof. revert lo s; induction k; simpl; intros; [reflexivity | apply IHk]. Qed.

Lemma for_from_ext {S : Type} k lo (body body' : Z -> S -> S) s :
  (forall i t, lo <= i < lo + Z.of_nat k -> body i t = body' i t) ->
  for_from k lo body s = for_from k lo body' s.
Proof.
  revert lo s; induction k; simpl; intros lo s H; [reflexivity|].
  rewrite H by lia. apply IHk. intros; apply H; lia.
Qed.

Lemma set_nth_length (v : list A) n x : length (set_nth v n x) = length v.
Proof.
  revert n; induction v; intros [|n]; simpl; try reflexivity.
  now rewrite IHv.
Qed.

Lemma set_nth_nth (v : list A) n x j d :
  nth j (set_nth v n x) d =
  if (j =? n)%nat && (n <? length v)%nat then x else nth j v d.
Proof.
  revert n j; induction v as [|a v IH]; intros n j.
  - simpl. rewrite andb_false_r. reflexivity.
  - destruct n, j; simpl; try reflexivity.
    rewrite IH. reflexivity.
Qed.

Lemma vec_set_length (v : list A) i x : length (vec_set v i x) = length v.
Proof. unfold vec_set. destruct (i <? 0); [reflexivity | apply set_nth_length]. Qed.

Lemma fill_loop_length (f : Z -> A) k lo v :
  length (fill_loop f k lo v) = length v.
Proof.
  unfold fill_loop. revert lo v; induction k; simpl; intros; [reflexivity|].
  rewrite IHk. apply vec_set_length.
Qed.

Lemma fill_loop_nth (f : Z -> A) k lo v j d :
  0 <= lo ->
  nth j (fill_loop f k lo v) d =
  if (lo <=? Z.of_nat j) && (Z.of_nat j <? lo + Z.of_nat k)
     && (j <? length v)%nat
  then f (Z.of_nat j) else nth j v d.
Proof.
  unfold fill_loop. revert lo v; induction k; intros lo v Hlo.
  - simpl. case_bools; reflexivity || lia.
  - cbn [for_from]. rewrite IHk by lia. rewrite vec_set_length.
    unfold vec_set. destruct (Z.ltb_spec lo 0); [lia|].
    rewrite set_nth_nth.
    case_bools; try reflexivity; try lia.
    f_equal; lia.
Qed.

(** Filling every cell of a vector gives the list of the values. *)
Lemma fill_loop_all (f : Z -> A) (v : list A) :
  fill_loop f (length v) 0 v = map f (zrange 0 (length v)).
Proof.
  destruct v as [|a v']; [reflexivity|].
  set (v := a :: v').
  apply nth_ext with (d := a) (d' := f 0).
  - rewrite fill_loop_length, length_map, zrange_length. reflexivity.
  - intros n Hn. rewrite fill_loop_length in Hn.
    rewrite fill_loop_nth by lia.
    rewrite (map_nth f (zrange 0 (length v)) 0 n).
    rewrite zrange_nth by lia.
    case_bools; try lia. f_equal.
Qed.

End LoopFacts.

Lemma map_const {A B : Type} (f : A -> B) (c : B) (l : list A) :
  (forall x, f x = c) -> map f l = repeat c (length l).
Proof.
  intros H. induction l; simpl; [reflexivity|]. now rewrite H, IHl.
Qed.

Lemma wrap_int_small z : INT_MIN <= z <= INT_MAX -> wrap_int z = z.
Proof.
  unfold wrap_int, INT_MIN, INT_MAX. intros H.
  rewrite Z.mod_small by lia. lia.
Qed.

Lemma int_of_size_t_small n :
  Z.of_nat n <= INT_MAX -> int_of_size_t n = Z.of_nat n.
Proof.
  intros H. apply wrap_int_small. unfold INT_MIN, INT_MAX in *. lia.
Qed.

Lemma vector_new_ok {A : Type} n (fill : A) :
  0 <= n -> vector_new n fill = Ok (repeat fill (Z.to_nat n)).
Proof. intros H. unfold vector_new. destruct (n <? 0) eqn:E; [lia | reflexivity]. Qed.

Lemma vector_new_negative {A : Type} n (fill : A) :
  n < 0 -> vector_new n fill = Throw length_error.
Proof. intros H. unfold vector_new. destruct (n <? 0) eqn:E; [reflexivity | lia]. Qed.


(** * Binary64 facts *)

Lemma Prim2SF_two : Prim2SF 2%float = S754_finite false 4503599627370496 (-51).
Proof. vm_compute. reflexivity. Qed.

Lemma Prim2SF_2p1023 :
  Prim2SF 0x1p1023%float = S754_finite false 4503599627370496 971.
Proof. vm_compute. reflexivity. Qed.

Lemma Prim2SF_zero : Prim2SF 0%float = S754_zero false.
Proof. vm_compute. reflexivity. Qed.



Ltac to_spec :=
  apply Prim2SF_inj;
  repeat first [ rewrite add_spec | rewrite sub_spec | rewrite mul_spec
               | rewrite div_spec | rewrite opp_spec | rewrite abs_spec ].

Lemma is_finite_spec (x : double) :
  is_finite x = true <->
  (exists s, Prim2SF x = S754_zero s) \/ (exists s m e, Prim2SF x = S754_finite s m e).
Proof.
  unfold is_finite, is_nan, is_infinity.
  rewrite !eqb_spec, abs_spec.
  change (Prim2SF infinity) with (S754_infinity false).
  destruct (Prim2SF x) as [s|s|  |s m e].
  - split; [intros _; left; eauto | reflexivity].
  - cbn. rewrite orb_true_r.
    split; [discriminate | intros [[? H]|[? [? [? H]]]]; discriminate H].
  - split; [discriminate | intros [[? H]|[? [? [? H]]]]; discriminate H].
  - assert (E : SFeqb (S754_finite s m e) (S754_finite s m e) = true).
    { unfold SFeqb, SFcompare.
      destruct s; rewrite Z.compare_refl, Pos.compare_cont_refl; reflexivity. }
    rewrite E. split; [intros _; right; eauto | reflexivity].
Qed.

Lemma shl_align_same m e : shl_align m e e = (m, e).
Proof. unfold shl_align. rewrite Z.sub_diag. reflexivity. Qed.

(** [x - x] is [+0] for every finite [x]. *)
Lemma sub_diag (x : double) : is_finite x = true -> (x - x)%float = 0%float.
Proof.
  intros H. apply is_finite_spec in H. to_spec.
  destruct H as [[s H] | [s [m [e H]]]]; rewrite H.
  - destruct s; reflexivity.
  - unfold SF64sub, SFsub. rewrite Z.min_id, shl_align_same. cbn [fst].
    rewrite Z.sub_diag. reflexivity.
Qed.

(** Multiplication commutes. *)
Lemma mul_comm (x y : double) : (x * y)%float = (y * x)%float.
Proof.
  to_spec. unfold SF64mul, SFmul.
  destruct (Prim2SF x) as [s|s| |s m e], (Prim2SF y) as [s'|s'| |s' m' e'];
    try reflexivity; try (now rewrite xorb_comm).
  now rewrite xorb_comm, Pos.mul_comm, Z.add_comm.
Qed.

(** [0 * x / 0] is NaN. *)
Lemma zero_mul_div_zero (x : double) : (0 * x / 0)%float = nan.
Proof.
  to_spec. change (Prim2SF 0) with (S754_zero false).
  change (Prim2SF nan) with S754_nan.
  destruct (Prim2SF x) as [s|s| |s m e]; reflexivity.
Qed.

(** [+0 + x] is [x], except that [-0] becomes [+0]. *)
Lemma add_zero_l (x : double) :
  (0 + x)%float = if Leibniz.eqb x (-0)%float then 0%float else x.
Proof.
  destruct (Leibniz.eqb x (-0)%float) eqn:E.
  - apply Leibniz.eqb_spec in E. subst x. reflexivity.
  - to_spec. change (Prim2SF 0) with (S754_zero false).
    destruct (Prim2SF x) as [s|s| |s m e] eqn:Hx; try reflexivity.
    destruct s; [|reflexivity].
    assert (x = (-0)%float) by (apply Prim2SF_inj; rewrite Hx; reflexivity).
    subst x. 
    assert (Leibniz.eqb (-0)%float (-0)%float = true) by (apply Leibniz.eqb_spec; reflexivity).
    congruence.
Qed.
Section Rounding.

Local Abbreviation emin := (SpecFloat.emin prec emax).
Local Abbreviation fexp := (SpecFloat.fexp prec emax).

Lemma emin_value : emin = -1074.
Proof. reflexivity. Qed.

Lemma fexp_value z : fexp z = Z.max (z - 53) (-1074).
Proof. reflexivity. Qed.

(** [digits2_pos m] is the number of binary digits of [m]. *)
Lemma digits2_pos_bounds (m : positive) :
  2 ^ (Z.pos (digits2_pos m) - 1) <= Z.pos m < 2 ^ Z.pos (digits2_pos m).
Proof.
  induction m as [m IH | m IH |]; cbn [digits2_pos].
  - rewrite Pos2Z.inj_succ.
    replace (Z.succ (Z.pos (digits2_pos m)) - 1) with (Z.succ (Z.pos (digits2_pos m) - 1)) by lia.
    rewrite !Z.pow_succ_r by lia. lia.
  - rewrite Pos2Z.inj_succ.
    replace (Z.succ (Z.pos (digits2_pos m)) - 1) with (Z.succ (Z.pos (digits2_pos m) - 1)) by lia.
    rewrite !Z.pow_succ_r by lia. lia.
  - cbn. lia.
Qed.

Lemma iter_pos_nat {A : Type} (f : A -> A) (p : positive) (x : A) :
  iter_pos f p x = Nat.iter (Pos.to_nat p) f x.
Proof.
  revert x; induction p as [p IH | p IH |]; intros x; cbn [iter_pos].
  - rewrite !IH, Pos2Nat.inj_xI.
    replace (S (2 * Pos.to_nat p)) with (Pos.to_nat p + (Pos.to_nat p + 1))%nat by lia.
    rewrite !Nat.iter_add. reflexivity.
  - rewrite !IH, Pos2Nat.inj_xO.
    replace (2 * Pos.to_nat p)%nat with (Pos.to_nat p + Pos.to_nat p)%nat by lia.
    rewrite Nat.iter_add. reflexivity.
  - reflexivity.
Qed.

Lemma shr_1_m mrs : 0 <= shr_m mrs -> shr_m (shr_1 mrs) = shr_m mrs / 2.
Proof.
  destruct mrs as [m r s]. cbn [shr_m]. intros H.
  destruct m as [|[p|p|]|p]; cbn [shr_1 shr_m]; try reflexivity; try lia.
  - apply Z.div_unique with (r := 1); lia.
  - apply Z.div_unique with (r := 0); lia.
Qed.

Lemma shr_iter_m n mrs :
  0 <= shr_m mrs ->
  shr_m (Nat.iter n shr_1 mrs) = shr_m mrs / 2 ^ Z.of_nat n.
Proof.
  intros H. induction n.
  - cbn. now rewrite Z.div_1_r.
  - rewrite Nat.iter_succ, shr_1_m.
    + rewrite IHn, Nat2Z.inj_succ, Z.pow_succ_r by lia.
      rewrite Z.div_div by lia. f_equal. lia.
    + rewrite IHn. apply Z.div_pos; lia.
Qed.

(** Shifting a positive mantissa to its format exponent leaves it positive,
    as long as the exponent is not below [emin]. *)
Lemma shr_fexp_pos m e l :
  0 < m -> emin <= e ->
  0 < shr_m (fst (shr_fexp prec emax m e l)) /\
  emin <= snd (shr_fexp prec emax m e l).
Proof.
  intros Hm He. unfold shr_fexp, shr.
  destruct m as [|m|m]; try lia. cbn [Zdigits2].
  pose proof (digits2_pos_bounds m) as Hd.
  set (d := Z.pos (digits2_pos m)) in *.
  rewrite fexp_value. rewrite emin_value in *.
  destruct (Z.max (d + e - 53) (-1074) - e) as [|n|n] eqn:En; cbn [fst snd].
  - destruct l as [|[]]; cbn; lia.
  - rewrite iter_pos_nat, shr_iter_m by (destruct l as [|[]]; cbn; lia).
    replace (shr_m (shr_record_of_loc (Z.pos m) l)) with (Z.pos m)
      by (destruct l as [|[]]; reflexivity).
    rewrite positive_nat_Z. split; [|lia].
    assert (Z.pos n <= d - 1) by lia.
    assert (2 ^ Z.pos n <= 2 ^ (d - 1)) by (apply Z.pow_le_mono_r; lia).
    apply Z.div_str_pos. lia.
  - destruct l as [|[]]; cbn; lia.
Qed.

Lemma round_nearest_even_pos m l : 0 < m -> 0 < round_nearest_even m l.
Proof.
  intros H. unfold round_nearest_even.
  destruct l as [|[]]; try lia. destruct (Z.even m); lia.
Qed.

(** Rounding a positive mantissa whose exponent is at least [emin] gives a
    finite number or an infinity of the same sign, never a zero. *)
Lemma binary_round_aux_class s m e l :
  0 < m -> emin <= e ->
  (exists m' e', binary_round_aux prec emax s m e l = S754_finite s m' e') \/
  binary_round_aux prec emax s m e l = S754_infinity s.
Proof.
  intros Hm He. unfold binary_round_aux.
  pose proof (shr_fexp_pos m e l Hm He) as [H1 H1'].
  destruct (shr_fexp prec emax m e l) as [mrs' e'']. cbn [fst snd] in *.
  pose proof (round_nearest_even_pos _ (loc_of_shr_record mrs') H1) as H2.
  pose proof (shr_fexp_pos _ e'' loc_Exact H2 H1') as [H3 _].
  destruct (shr_fexp prec emax _ e'' loc_Exact) as [mrs2 e2]. cbn [fst] in H3.
  destruct (shr_m mrs2) as [|m2|m2]; try lia.
  destruct (e2 <=? emax - prec); eauto.
Qed.

Lemma valid_emin s m e :
  valid_binary (S754_finite s m e) = true -> emin <= e.
Proof.
  unfold valid_binary, SpecFloat.valid_binary, bounded, canonical_mantissa.
  intros H. apply andb_true_iff in H as [H _]. apply Z.eqb_eq in H.
  rewrite fexp_value in H. rewrite emin_value. lia.
Qed.

Lemma binary_round_class s m e :
  emin <= e ->
  (exists m' e', binary_round prec emax s m e = S754_finite s m' e') \/
  binary_round prec emax s m e = S754_infinity s.
Proof.
  intros He. unfold binary_round.
  destruct (shl_align m e _) as [mz ez] eqn:E.
  apply binary_round_aux_class; [lia|].
  unfold shl_align in E. rewrite fexp_value in E. rewrite emin_value in *.
  destruct (_ - e) eqn:E'; inversion E; subst; lia.
Qed.

(** Whatever is rounded, the result carries the sign it was given. *)
Lemma binary_round_aux_sign s m e l :
  match binary_round_aux prec emax s m e l with
  | S754_zero s' | S754_infinity s' | S754_finite s' _ _ => s' = s
  | S754_nan => True
  end.
Proof.
  unfold binary_round_aux.
  destruct (shr_fexp prec emax m e l) as [mrs' e'].
  destruct (shr_fexp prec emax _ e' loc_Exact) as [mrs2 e2].
  destruct (shr_m mrs2); [reflexivity | | exact I].
  destruct (e2 <=? emax - prec); reflexivity.
Qed.

Lemma shr_iter_exact n m :
  Nat.iter n shr_1 (Build_shr_record (Z.pos (Nat.iter n xO m)) false false)
  = Build_shr_record (Z.pos m) false false.
Proof.
  induction n; [reflexivity|].
  rewrite Nat.iter_succ_r, Nat.iter_succ. cbn [shr_1 orb]. exact IHn.
Qed.

Lemma digits2_pos_iter n m :
  Z.pos (digits2_pos (Nat.iter n xO m)) = Z.pos (digits2_pos m) + Z.of_nat n.
Proof.
  induction n; [cbn [Nat.iter nat_rect]; lia|].
  rewrite Nat.iter_succ. cbn [digits2_pos]. lia.
Qed.

(** A valid mantissa written with [n] more low zero bits rounds to itself. *)
Lemma binary_round_aux_exact s m e n :
  valid_binary (S754_finite s m e) = true ->
  binary_round_aux prec emax s (Z.pos (Nat.iter n xO m)) (e - Z.of_nat n) loc_Exact
  = S754_finite s m e.
Proof.
  unfold valid_binary, SpecFloat.valid_binary, bounded, canonical_mantissa.
  intros H. apply andb_true_iff in H as [Hc Hb]. apply Z.eqb_eq in Hc.
  assert (Hsh : forall l, shr_fexp prec emax (Z.pos m) e l = (shr_record_of_loc (Z.pos m) l, e)).
  { intros l. unfold shr_fexp. cbn [Zdigits2]. rewrite Hc, Z.sub_diag. reflexivity. }
  unfold binary_round_aux.
  assert (H1 : shr_fexp prec emax (Z.pos (Nat.iter n xO m)) (e - Z.of_nat n) loc_Exact
               = (Build_shr_record (Z.pos m) false false, e)).
  { destruct n as [|n]; [cbn [Nat.iter nat_rect]; rewrite Z.sub_0_r; apply Hsh|].
    unfold shr_fexp. cbn [Zdigits2]. rewrite digits2_pos_iter.
    replace (Z.pos (digits2_pos m) + Z.of_nat (S n) + (e - Z.of_nat (S n)))
      with (Z.pos (digits2_pos m) + e) by lia.
    rewrite Hc.
    replace (e - (e - Z.of_nat (S n))) with (Z.pos (Pos.of_succ_nat n)) by lia.
    unfold shr. rewrite iter_pos_nat, SuccNat2Pos.id_succ.
    cbn [shr_record_of_loc]. rewrite shr_iter_exact. f_equal. lia. }
  rewrite H1. cbn [shr_m loc_of_shr_record round_nearest_even].
  rewrite Hsh. cbn [shr_record_of_loc shr_m]. rewrite Hb. reflexivity.
Qed.

Lemma div_eucl_mul_l a b : 0 < b -> IntDef.Z.div_eucl (b * a) b = (a, 0).
Proof.
  intros H. rewrite (Z.mul_comm b a).
  pose proof (Z.div_mul a b) as Hd. pose proof (Z.mod_mul a b) as Hm.
  unfold Z.div, Z.modulo in Hd, Hm.
  change Z.div_eucl with IntDef.Z.div_eucl in *.
  destruct (IntDef.Z.div_eucl (a * b) b) as [q r]. f_equal; [apply Hd | apply Hm]; lia.
Qed.

(** A finite number divided by itself is exactly one. *)
Lemma SFdiv_diag s m e :
  SF64div (S754_finite s m e) (S754_finite s m e)
  = S754_finite false 4503599627370496 (-52).
Proof.
  unfold SF64div, SFdiv, SFdiv_core_binary.
  rewrite !Z.sub_diag. cbn [Z.min Z.compare fexp_value].
  change (SpecFloat.fexp prec emax 0) with (-53).
  change (Z.min (-53) 0) with (-53). change (0 - -53) with 53.
  cbv beta iota. rewrite Z.shiftl_mul_pow2 by lia.
  rewrite div_eucl_mul_l by lia.
  replace (new_location (Z.pos m) 0) with loc_Exact.
  2:{ unfold new_location. destruct (Z.even (Z.pos m)); reflexivity. }
  rewrite xorb_nilpotent. reflexivity.
Qed.

End Rounding.

(** * Doubles *)

Lemma Prim2SF_one : Prim2SF 1%float = S754_finite false 4503599627370496 (-52).
Proof. vm_compute. reflexivity. Qed.

(** [x / x] is exactly 1 for every finite nonzero [x]. *)
Lemma div_diag (x : double) :
  is_finite x = true -> is_zero x = false -> (x / x)%float = 1%float.
Proof.
  intros Hf Hz. apply is_finite_spec in Hf. to_spec.
  destruct Hf as [[s H] | [s [m [e H]]]].
  - unfold is_zero in Hz. rewrite eqb_spec, H in Hz. discriminate Hz.
  - rewrite H. apply SFdiv_diag.
Qed.

Lemma mul_pow2_iter (m : positive) :
  (m * 4503599627370496)%positive = Nat.iter 52 xO m.
Proof. rewrite Pos.mul_comm. reflexivity. Qed.

(** [x * 1] is [x]. *)
Lemma mul_one_r (x : double) : (x * 1)%float = x.
Proof.
  to_spec. rewrite Prim2SF_one. pose proof (Prim2SF_valid x) as Hv.
  destruct (Prim2SF x) as [s|s| |s m e]; unfold SF64mul, SFmul;
    try (now rewrite xorb_false_r); try reflexivity.
  rewrite xorb_false_r, mul_pow2_iter.
  change (e + -52) with (e - Z.of_nat 52).
  apply binary_round_aux_exact. exact Hv.
Qed.

Lemma SFadd_neg_zero (x y : spec_float) :
  valid_binary x = true -> valid_binary y = true ->
  SF64add x y = S754_zero true -> x = S754_zero true /\ y = S754_zero true.
Proof.
  intros Hx Hy. unfold SF64add, SFadd.
  destruct x as [s|s| |s m e], y as [s'|s'| |s' m' e'];
    try discriminate;
    try (destruct s, s'; (discriminate || (intros _; split; reflexivity))).
  apply valid_emin in Hx, Hy.
  set (ez := Z.min e e').
  assert (He : SpecFloat.emin prec emax <= ez) by (subst ez; lia).
  generalize (cond_Zopp s (Z.pos (fst (shl_align m e ez)))
              + cond_Zopp s' (Z.pos (fst (shl_align m' e' ez)))).
  intros [|p|p]; cbn [binary_normalize]; [discriminate | |].
  - destruct (binary_round_class false p ez He) as [[m2 [e2 H]] | H];
      rewrite H; discriminate.
  - destruct (binary_round_class true p ez He) as [[m2 [e2 H]] | H];
      rewrite H; discriminate.
Qed.

(** A sum is [-0] only if both terms are. *)
Lemma add_neg_zero (x y : double) :
  is_neg_zero (x + y)%float = true ->
  is_neg_zero x = true /\ is_neg_zero y = true.
Proof.
  unfold is_neg_zero. rewrite add_spec. intros H.
  destruct (SF64add (Prim2SF x) (Prim2SF y)) as [[|]| | |] eqn:E; try discriminate H.
  apply SFadd_neg_zero in E; try apply Prim2SF_valid.
  destruct E as [-> ->]. split; reflexivity.
Qed.

(** Adding [+0] changes nothing but the sign of [-0]. *)
Lemma add_zero_r (x : double) :
  is_neg_zero x = false -> (x + 0)%float = x.
Proof.
  unfold is_neg_zero. intros H. to_spec.
  change (Prim2SF 0) with (S754_zero false).
  destruct (Prim2SF x) as [[|]|s| |s m e]; try reflexivity. discriminate H.
Qed.

(** * The order of doubles *)

Lemma lex_compare_spec k k' :
  match lex_compare k k' with
  | Lt => lex_lt k k'
  | Eq => k = k'
  | Gt => lex_lt k' k
  end.
Proof.
  destruct k as [[a b] c], k' as [[a' b'] c']. unfold lex_compare, lex_lt.
  destruct (Z.compare_spec a a'); [|lia|lia].
  destruct (Z.compare_spec b b'); [|lia|lia].
  destruct (Z.compare_spec c c'); [congruence|lia|lia].
Qed.

Lemma SFcompare_key (x y : spec_float) :
  x <> S754_nan -> y <> S754_nan ->
  SFcompare x y = Some (lex_compare (SFkey x) (SFkey y)).
Proof.
  intros Hx Hy.
  destruct x as [s|s| |s m e], y as [s'|s'| |s' m' e']; try congruence;
    try (destruct s; reflexivity); try (destruct s'; reflexivity);
    try (destruct s, s'; reflexivity).
  destruct s, s'; try reflexivity; cbn [SFcompare SFkey lex_compare].
  change (-1 ?= -1) with Eq. cbv iota.
  rewrite Z.compare_opp, (Z.compare_antisym e e').
  destruct (e ?= e'); reflexivity.
Qed.

Lemma lex_lt_irrefl k : ~ lex_lt k k.
Proof. destruct k as [[a b] c]. unfold lex_lt. lia. Qed.

Lemma lex_lt_asym k k' : lex_lt k k' -> ~ lex_lt k' k.
Proof.
  destruct k as [[a b] c], k' as [[a' b'] c']. unfold lex_lt. lia.
Qed.

Lemma ltb_key (x y : double) :
  not_nan x -> not_nan y -> ((x <? y)%float = true <-> lex_lt (key x) (key y)).
Proof.
  intros Hx Hy. rewrite ltb_spec. unfold SFltb, key.
  rewrite SFcompare_key by assumption.
  pose proof (lex_compare_spec (SFkey (Prim2SF x)) (SFkey (Prim2SF y))) as H.
  destruct (lex_compare _ _); split; try discriminate; try reflexivity; intros H'.
  - rewrite H in H'. now apply lex_lt_irrefl in H'.
  - exact H.
  - now apply lex_lt_asym in H'.
Qed.

Lemma leb_key (x y : double) :
  not_nan x -> not_nan y -> ((x <=? y)%float = true <-> lex_le (key x) (key y)).
Proof.
  intros Hx Hy. rewrite leb_spec. unfold SFleb, key, lex_le.
  rewrite SFcompare_key by assumption.
  pose proof (lex_compare_spec (SFkey (Prim2SF x)) (SFkey (Prim2SF y))) as H.
  destruct (lex_compare _ _); split; try discriminate; try reflexivity; auto.
  intros [H' | H'].
  - now apply lex_lt_asym in H'.
  - rewrite H' in H. now apply lex_lt_irrefl in H.
Qed.

Lemma ltb_not_nan (x y : double) : (x <? y)%float = true -> not_nan x /\ not_nan y.
Proof.
  rewrite ltb_spec. unfold SFltb, not_nan.
  destruct (Prim2SF x), (Prim2SF y); cbn; try discriminate; split; discriminate.
Qed.

Lemma leb_not_nan (x y : double) : (x <=? y)%float = true -> not_nan x /\ not_nan y.
Proof.
  rewrite leb_spec. unfold SFleb, not_nan.
  destruct (Prim2SF x), (Prim2SF y); cbn; try discriminate; split; discriminate.
Qed.

Ltac order_keys :=
  repeat match goal with
         | H : (?x <? ?y)%float = true |- _ =>
             let Hn := fresh in
             pose proof (ltb_not_nan x y H) as [? ?];
             apply ltb_key in H; [|assumption|assumption]
         | H : (?x <=? ?y)%float = true |- _ =>
             pose proof (leb_not_nan x y H) as [? ?];
             apply leb_key in H; [|assumption|assumption]
         end.

Lemma lex_le_lt_trans k1 k2 k3 : lex_le k1 k2 -> lex_lt k2 k3 -> lex_lt k1 k3.
Proof.
  destruct k1 as [[a1 b1] c1], k2 as [[a2 b2] c2], k3 as [[a3 b3] c3].
  unfold lex_le, lex_lt. intros [H | H] H'; [lia|]. inversion H; subst. lia.
Qed.

Lemma lex_le_trans k1 k2 k3 : lex_le k1 k2 -> lex_le k2 k3 -> lex_le k1 k3.
Proof.
  intros H [H' | H']; [left; eapply lex_le_lt_trans; eassumption | now subst].
Qed.

Lemma leb_ltb_trans (x y z : double) :
  (x <=? y)%float = true -> (y <? z)%float = true -> (x <? z)%float = true.
Proof.
  intros H1 H2. order_keys. apply ltb_key; try assumption.
  eapply lex_le_lt_trans; eassumption.
Qed.

Lemma leb_trans (x y z : double) :
  (x <=? y)%float = true -> (y <=? z)%float = true -> (x <=? z)%float = true.
Proof.
  intros H1 H2. order_keys. apply leb_key; try assumption.
  eapply lex_le_trans; eassumption.
Qed.

Lemma ltb_leb (x y : double) : (x <? y)%float = true -> (x <=? y)%float = true.
Proof.
  intros H. order_keys. apply leb_key; try assumption. now left.
Qed.

Lemma leb_refl (x : double) : not_nan x -> (x <=? x)%float = true.
Proof. intros H. apply leb_key; try assumption. now right. Qed.

Lemma not_ltb_leb (x y : double) :
  not_nan x -> not_nan y -> (x <? y)%float = false -> (y <=? x)%float = true.
Proof.
  intros Hx Hy H. apply leb_key; try assumption.
  assert (Hn : ~ lex_lt (key x) (key y)).
  { intros Hl. apply ltb_key in Hl; try assumption. congruence. }
  pose proof (lex_compare_spec (key y) (key x)) as Hc.
  destruct (lex_compare (key y) (key x)); [now right | now left | contradiction].
Qed.

(** * Products *)

Lemma leb_zero_cases (x : double) :
  (0 <=? x)%float = true ->
  (exists s, Prim2SF x = S754_zero s) \/ Prim2SF x = S754_infinity false \/
  (exists m e, Prim2SF x = S754_finite false m e).
Proof.
  rewrite leb_spec. change (Prim2SF 0) with (S754_zero false).
  destruct (Prim2SF x) as [s|[|]| |[|] m e]; cbn; try discriminate; eauto.
Qed.

(** The product of two non-negative doubles is not negative. *)
Lemma mul_nonneg_trunc (x y : double) (t : Z) :
  (0 <=? x)%float = true -> (0 <=? y)%float = true ->
  double_trunc (x * y)%float = Some t -> 0 <= t.
Proof.
  intros Hx Hy. unfold double_trunc. rewrite mul_spec.
  apply leb_zero_cases in Hx, Hy. unfold SF64mul, SFmul.
  destruct Hx as [[s ->] | [-> | [m [e ->]]]];
    destruct Hy as [[s' ->] | [-> | [m' [e' ->]]]];
    try discriminate; try (intros H; inversion H; lia).
  pose proof (binary_round_aux_sign (xorb false false) (Z.pos (m * m')) (e + e') loc_Exact) as Hs.
  destruct (binary_round_aux _ _ _ _ _ _) as [s|s| |s m2 e2];
    try discriminate; intros H; inversion H; subst; [lia|].
  cbn [xorb]. pose proof (Z.shiftl_nonneg (Z.pos m2) e2). lia.
Qed.

(** Doubling a finite nonzero double below 2^1023 in magnitude gives a finite
    nonzero double. *)
Lemma SFmul_two s m e :
  valid_binary (S754_finite s m e) = true -> e <= 970 ->
  exists m' e', SF64mul (S754_finite false 4503599627370496 (-51)) (S754_finite s m e)
                = S754_finite s m' e'.
Proof.
  intros Hv He. unfold SF64mul, SFmul. cbn [xorb].
  change (4503599627370496 * m)%positive with (Nat.iter 52 xO m).
  pose proof Hv as Hv'.
  unfold valid_binary, SpecFloat.valid_binary, bounded, canonical_mantissa in Hv'.
  apply andb_true_iff in Hv' as [Hc Hb]. apply Z.eqb_eq in Hc.
  rewrite fexp_value in Hc.
  destruct (Z_le_gt_dec (-1074) (Z.pos (digits2_pos m) + e - 53)) as [Hn | Hs].
  - exists m, (e + 1).
    replace (-51 + e) with (e + 1 - Z.of_nat 52) by lia.
    apply binary_round_aux_exact.
    unfold valid_binary, SpecFloat.valid_binary, bounded, canonical_mantissa.
    apply andb_true_iff. split; [apply Z.eqb_eq; rewrite fexp_value | apply Z.leb_le];
      change (emax - prec) with 971; lia.
  - exists (xO m), e.
    rewrite Nat.iter_succ_r.
    replace (-51 + e) with (e - Z.of_nat 51) by lia.
    apply binary_round_aux_exact.
    unfold valid_binary, SpecFloat.valid_binary, bounded, canonical_mantissa.
    apply andb_true_iff. split; [apply Z.eqb_eq; rewrite fexp_value | exact Hb].
    cbn [digits2_pos]. lia.
Qed.

Lemma SFltb_abs_finite s m e M E :
  SFltb (SFabs (S754_finite s m e)) (S754_finite false M E) = true ->
  e < E \/ (e = E /\ Z.pos m < Z.pos M).
Proof.
  unfold SFltb, SFabs, SFcompare. intros Hlt.
  destruct (Z.compare_spec e E) as [He | He | He];
    [right | now left | discriminate Hlt].
  split; [exact He|].
  rewrite Pos.compare_cont_spec in Hlt. unfold Pos.switch_Eq in Hlt.
  destruct (Pos.compare_spec m M) as [Ee | Ec | Ec]; try discriminate Hlt.
  apply Pos2Z.pos_lt_pos. exact Ec.
Qed.

Lemma below_2p1023_exponent s m e :
  valid_binary (S754_finite s m e) = true ->
  SFltb (SFabs (S754_finite s m e)) (S754_finite false 4503599627370496 971) = true ->
  e <= 970.
Proof.
  intros Hv Hlt. apply SFltb_abs_finite in Hlt.
  destruct Hlt as [Hlt | [He Hlt]]; [clear - Hlt; lia | exfalso]. subst e.
  unfold valid_binary, SpecFloat.valid_binary, bounded, canonical_mantissa in Hv.
  apply andb_true_iff in Hv as [Hc _]. apply Z.eqb_eq in Hc.
  rewrite fexp_value in Hc.
  assert (E : Z.pos (digits2_pos m) = 53) by (clear - Hc; lia).
  pose proof (digits2_pos_bounds m) as [Hd _]. rewrite E in Hd.
  apply (Z.lt_irrefl (Z.pos m)).
  eapply Z.lt_le_trans; [exact Hlt | exact Hd].
Qed.

Lemma mul_two_finite (c : double) :
  is_finite c = true -> is_zero c = false ->
  (abs c <? 0x1p1023)%float = true ->
  is_finite (2 * c)%float = true /\ is_zero (2 * c)%float = false.
Proof.
  intros Hf Hz Hlt. apply is_finite_spec in Hf.
  unfold is_zero in *. change zero with 0%float in *.
  rewrite eqb_spec, Prim2SF_zero in Hz |- *.
  rewrite ltb_spec, abs_spec, Prim2SF_2p1023 in Hlt.
  pose proof (Prim2SF_valid c) as Hv.
  destruct Hf as [[s H] | [s [m [e H]]]]; rewrite H in Hz, Hlt, Hv; [discriminate Hz|].
  pose proof (below_2p1023_exponent s m e Hv Hlt) as He.
  destruct (SFmul_two s m e Hv He) as [m' [e' E]].
  assert (E2 : Prim2SF (2 * c)%float = S754_finite s m' e').
  { rewrite mul_spec, H, Prim2SF_two. exact E. }
  split.
  - apply is_finite_spec. right. eauto.
  - rewrite E2. destruct s; reflexivity.
Qed.

(** * compute_fft *)

Section ComputeFFT.

Variable fftw_out : list double -> Z -> complex.

(** While the loop stays inside the [out] buffer it copies the bins. *)
Lemma copy_bins_loop (input : list double) N k lo (result : list complex) :
  0 <= lo -> lo + Z.of_nat k <= N ->
  for_from k lo
    (fun i acc =>
       result <- acc ;;
       bin <- read_out fftw_out input N i ;;
       Ok (vec_set result i (fst bin, snd bin)))
    (Ok result)
  = Ok (fill_loop (fftw_out input) k lo result).
Proof.
  unfold fill_loop.
  revert lo result; induction k; intros lo result Hlo Hhi; [reflexivity|].
  cbn [for_from bind]. unfold read_out at 2.
  replace ((0 <=? lo) && (lo <? N)) with true by (symmetry; case_bools; lia).
  cbn [bind]. rewrite <- surjective_pairing.
  apply IHk; lia.
Qed.

(** The spectrum of a non-empty input: bins [out[0]] to [out[N/2]]. *)
Lemma compute_fft_nonempty (input : list double) :
  (1 <= length input)%nat -> Z.of_nat (length input) <= INT_MAX ->
  compute_fft fftw_out input
  = Ok (map (fftw_out input) (zrange 0 (length input / 2 + 1))).
Proof.
  intros H1 Hmax. unfold compute_fft.
  rewrite int_of_size_t_small by assumption.
  set (N := Z.of_nat (length input)).
  assert (Hq : Z.quot N 2 + 1 = Z.of_nat (length input / 2 + 1)).
  { rewrite Z.quot_div_nonneg by lia. subst N.
    rewrite Nat2Z.inj_add, Nat2Z.inj_div. reflexivity. }
  rewrite Hq, vector_new_ok by lia. cbn [bind].
  unfold for_loop. rewrite Z.sub_0_r, Nat2Z.id.
  assert (Hle : Z.of_nat (length input / 2 + 1) <= N).
  { rewrite <- Hq. rewrite Z.quot_div_nonneg by lia.
    assert (N / 2 < N); [|lia].
    apply Z.div_lt_upper_bound; lia. }
  rewrite copy_bins_loop by lia.
  set (r := repeat _ _).
  replace (length input / 2 + 1)%nat with (length r)
    by (subst r; apply repeat_length).
  f_equal. apply fill_loop_all.
Qed.

(** On the empty input the result vector has one cell, and the loop reads
    [out[0]] from a buffer of no cell. *)
Lemma compute_fft_empty : compute_fft fftw_out [] = Undefined.
Proof. reflexivity. Qed.

(** X11: for every input signal of length N with 1 <= N <= INT_MAX,
    compute_fft returns a spectrum of length floor(N/2)+1, whose bin i is the
    bin i of the transform. *)
Theorem compute_fft_length (input : list double) :
  (1 <= length input)%nat -> Z.of_nat (length input) <= INT_MAX ->
  exists result,
    compute_fft fftw_out input = Ok result /\
    length result = (length input / 2 + 1)%nat /\
    forall i, (i < length result)%nat ->
      nth i result (0%float, 0%float) = fftw_out input (Z.of_nat i).
Proof.
  intros H1 Hmax. eexists. split; [apply compute_fft_nonempty; assumption|].
  rewrite length_map, zrange_length. split; [reflexivity|].
  intros i Hi.
  rewrite (nth_indep _ _ (fftw_out input 0))
    by (rewrite length_map, zrange_length; exact Hi).
  rewrite (map_nth (fftw_out input)), zrange_nth by exact Hi.
  reflexivity.
Qed.

End ComputeFFT.

(** C1, where the code departs from it: on the empty signal the result
    vector is sized 0/2 + 1 = 1, the first copy reads [out[0]] outside the
    0-cell buffer, and the call has undefined behaviour instead of returning
    a spectrum of length 0, whatever the transform collaborator does. *)
Theorem compute_fft_empty_undefined (fftw_out : list double -> Z -> complex) :
  Z.quot (int_of_size_t (length (@nil double))) 2 + 1 = 1 /\
  read_out fftw_out [] (int_of_size_t (length (@nil double))) 0 = Undefined /\
  compute_fft fftw_out [] = Undefined.
Proof.
  split; [reflexivity|]. split; [reflexivity|]. apply compute_fft_empty.
Qed.

Lemma compute_fft_length_witness :
  exists result,
    compute_fft (fun _ i => (double_of_int i, 0%float))
                [1%float; 2%float; 3%float; 4%float; 5%float] = Ok result /\
    length result = 3%nat /\
    forall i, (i < length result)%nat ->
      nth i result (0%float, 0%float) = (double_of_int (Z.of_nat i), 0%float).
Proof.
  apply (compute_fft_length (fun _ i => (double_of_int i, 0%float))
           [1%float; 2%float; 3%float; 4%float; 5%float]).
  - simpl. lia.
  - vm_compute. discriminate.
Defined.

(** * calculate_snr: the length check *)

Section SnrValidation.

Variable log10 : double -> double.

(** C8: signals of unequal length make calculate_snr throw
    std::invalid_argument, and nothing else does: on signals of equal length
    the call always returns a value. *)
Theorem calculate_snr_length_check (signal noisy : list double) :
  (length signal <> length noisy ->
   calculate_snr log10 signal noisy = Throw invalid_argument) /\
  (length signal = length noisy ->
   exists snr_db, calculate_snr log10 signal noisy = Ok snr_db).
Proof.
  unfold calculate_snr. split; intros H.
  - apply Nat.eqb_neq in H. rewrite H. reflexivity.
  - apply Nat.eqb_eq in H. rewrite H. cbn [negb].
    destruct (_ =? _)%float; eexists; reflexivity.
Qed.

End SnrValidation.

(** * apply_lowpass_filter: the shape of the computation *)

Section LowpassShape.

Variables sin cos : double -> double.

Lemma design_coeffs_map cutoff_freq num_taps center (filter_coeffs : list double) :
  Z.of_nat (length filter_coeffs) = num_taps ->
  design_coeffs sin cos cutoff_freq num_taps center filter_coeffs
  = map (raw_coeff sin cos cutoff_freq num_taps center)
        (zrange 0 (length filter_coeffs)).
Proof.
  intros Hn. unfold design_coeffs, for_loop.
  rewrite Z.sub_0_r, <- Hn, Nat2Z.id.
  rewrite <- fill_loop_all. unfold fill_loop.
  apply for_from_ext. intros i t _. unfold raw_coeff.
  destruct (i - center =? 0); reflexivity.
Qed.

Lemma convolve_map input filter_coeffs num_taps center (output : list double) :
  convolve input filter_coeffs num_taps center
           (Z.of_nat (length output)) output
  = map (mac input filter_coeffs num_taps center (Z.of_nat (length output)))
        (zrange 0 (length output)).
Proof.
  unfold convolve, for_loop. rewrite Z.sub_0_r, Nat2Z.id.
  apply fill_loop_all.
Qed.

Lemma filter_design_ok cutoff_freq num_taps :
  0 <= num_taps ->
  filter_design sin cos cutoff_freq num_taps
  = Ok (normalize_coeffs
          (map (raw_coeff sin cos cutoff_freq num_taps (Z.quot num_taps 2))
               (zrange 0 (Z.to_nat num_taps)))).
Proof.
  intros H. unfold filter_design. rewrite vector_new_ok by assumption.
  cbn [bind]. rewrite design_coeffs_map by (rewrite repeat_length; lia).
  rewrite repeat_length. reflexivity.
Qed.

(** The filter on a valid tap count and an input whose size is an [int]. *)
Lemma apply_lowpass_filter_ok input cutoff_freq num_taps :
  0 <= num_taps -> Z.of_nat (length input) <= INT_MAX ->
  apply_lowpass_filter sin cos input cutoff_freq num_taps
  = Ok (map (mac input
               (normalize_coeffs
                  (map (raw_coeff sin cos cutoff_freq num_taps (Z.quot num_taps 2))
                       (zrange 0 (Z.to_nat num_taps))))
               num_taps (Z.quot num_taps 2) (Z.of_nat (length input)))
            (zrange 0 (length input))).
Proof.
  intros Ht Hn. unfold apply_lowpass_filter.
  rewrite filter_design_ok by assumption. cbn [bind].
  rewrite int_of_size_t_small by assumption.
  rewrite vector_new_ok by lia. cbn [bind]. rewrite Nat2Z.id.
  set (output := repeat _ _).
  assert (Hlen : length output = length input) by apply repeat_length.
  rewrite <- Hlen. rewrite convolve_map. reflexivity.
Qed.

(** C2, as the code has it: apply_lowpass_filter does not validate
    num_taps.  A negative num_taps fails, but in the constructor of the
    coefficient vector and with std::length_error; num_taps = 0 does not
    fail: the call returns a signal of the length of the input whose samples
    are all 0.0. *)
Theorem lowpass_nonpositive_taps (input : list double) (cutoff_freq : double)
    (num_taps : Z) :
  num_taps <= 0 -> Z.of_nat (length input) <= INT_MAX ->
  apply_lowpass_filter sin cos input cutoff_freq num_taps
  = if num_taps <? 0 then Throw length_error
    else Ok (repeat 0%float (length input)).
Proof.
  intros Hle Hn. destruct (Z.ltb_spec num_taps 0) as [Hneg | Hpos].
  - unfold apply_lowpass_filter, filter_design.
    rewrite vector_new_negative by assumption. reflexivity.
  - assert (num_taps = 0) by lia. subst num_taps.
    rewrite apply_lowpass_filter_ok by (assumption || lia).
    f_equal.
    transitivity (repeat 0%float (length (zrange 0 (length input))));
      [| now rewrite zrange_length].
    apply map_const. intros i. reflexivity.
Qed.

End LowpassShape.

(** C2 read literally fails at num_taps = 0, whatever <cmath> does. *)
Lemma lowpass_zero_taps_counterexample :
  exists input cutoff_freq,
    forall sin cos : double -> double,
      apply_lowpass_filter sin cos input cutoff_freq 0
      = Ok [0%float; 0%float; 0%float].
Proof.
  exists [1%float; 2%float; 3%float], 0.25%float. intros. reflexivity.
Qed.

Lemma lowpass_nonpositive_taps_witness :
  apply_lowpass_filter (fun x => x) (fun x => x)
    [1%float; 2%float; 3%float] 0.25%float (-1)
  = Throw length_error.
Proof.
  apply (lowpass_nonpositive_taps (fun x => x) (fun x => x)
           [1%float; 2%float; 3%float] 0.25%float (-1)).
  - lia.
  - vm_compute. discriminate.
Defined.

(** * Loops that read a vector from its first to its last cell *)

Lemma for_from_read {A S : Type} (g : S -> A -> S) (d : A) (pre l : list A) (s : S) :
  for_from (length l) (Z.of_nat (length pre))
           (fun i acc => g acc (vec_get d (pre ++ l) i)) s
  = fold_left g l s.
Proof.
  revert pre s; induction l as [|a l IH]; intros pre s; [reflexivity|].
  cbn [length for_from fold_left].
  unfold vec_get at 2. rewrite Nat2Z.id, nth_middle.
  replace (Z.of_nat (length pre) + 1) with (Z.of_nat (length (pre ++ [a])))
    by (rewrite length_app; simpl; lia).
  replace (pre ++ a :: l) with ((pre ++ [a]) ++ l)
    by (rewrite <- app_assoc; reflexivity).
  apply IH.
Qed.

Lemma for_loop_read {A S : Type} (g : S -> A -> S) (d : A) (l : list A) (s : S) :
  for_loop 0 (Z.of_nat (length l)) (fun i acc => g acc (vec_get d l i)) s
  = fold_left g l s.
Proof.
  unfold for_loop. rewrite Z.sub_0_r, Nat2Z.id.
  apply (for_from_read g d [] l s).
Qed.

(** * calculate_snr: the powers and the cap *)

Section SnrValue.

Variable log10 : double -> double.

Lemma signal_power_sum (signal : list double) :
  signal_power signal (Z.of_nat (length signal)) = sum_squares signal.
Proof.
  unfold signal_power, sum_squares.
  apply (for_loop_read (fun acc s => (acc + s * s)%float)).
Qed.

Lemma noise_power_sum (signal noisy : list double) :
  length signal = length noisy ->
  noise_power signal noisy (Z.of_nat (length signal))
  = sum_squared_differences signal noisy.
Proof.
  intros Hlen. unfold noise_power, sum_squared_differences.
  assert (Hc : length (combine signal noisy) = length signal)
    by (rewrite length_combine, <- Hlen; apply Nat.min_id).
  rewrite <- Hc at 1.
  rewrite <- (for_loop_read
                (fun acc p => (acc + (snd p - fst p) * (snd p - fst p))%float)
                (0%float, 0%float)).
  unfold for_loop. apply for_from_ext. intros i t Hi.
  unfold vec_get. rewrite combine_nth by exact Hlen. reflexivity.
Qed.

(** The noise power of a finite signal against itself is [+0]. *)
Lemma sum_squared_differences_diag (x : list double) :
  Forall (fun s => is_finite s = true) x ->
  sum_squared_differences x x = 0%float.
Proof.
  unfold sum_squared_differences. induction 1 as [|a l Ha _ IH]; [reflexivity|].
  cbn [combine fold_left fst snd]. rewrite (sub_diag a Ha).
  replace (0 + 0 * 0)%float with 0%float by reflexivity. exact IH.
Qed.

(** C7: on signals of equal length (an [int]), calculate_snr returns the
    sentinel 100.0 when the computed noise power sum((noisy[i]-signal[i])^2)
    compares equal to zero, and 10 * log10(signal_power / noise_power)
    otherwise; calculate_snr(x, x) is the sentinel for every x of finite
    samples, the empty one included. *)
Theorem calculate_snr_capped (signal noisy : list double) :
  length signal = length noisy ->
  Z.of_nat (length signal) <= INT_MAX ->
  calculate_snr log10 signal noisy
  = (if (sum_squared_differences signal noisy =? 0)%float then Ok 100%float
     else Ok (10 * log10 (sum_squares signal
                          / sum_squared_differences signal noisy))%float)
  /\ (Forall (fun s => is_finite s = true) signal ->
      calculate_snr log10 signal signal = Ok 100%float).
Proof.
  intros Hlen Hmax.
  assert (Hgen : forall noisy', length signal = length noisy' ->
            calculate_snr log10 signal noisy'
            = (if (sum_squared_differences signal noisy' =? 0)%float
               then Ok 100%float
               else Ok (10 * log10 (sum_squares signal
                                    / sum_squared_differences signal noisy'))%float)).
  { intros noisy' Hl. unfold calculate_snr.
    rewrite <- Hl, Nat.eqb_refl. cbn [negb].
    rewrite int_of_size_t_small by assumption.
    rewrite signal_power_sum, noise_power_sum by assumption.
    destruct (_ =? _)%float; reflexivity. }
  split; [apply Hgen; assumption|].
  intros Hfin. rewrite Hgen by reflexivity.
  rewrite sum_squared_differences_diag by assumption. reflexivity.
Qed.

End SnrValue.

Lemma calculate_snr_capped_witness :
  calculate_snr (fun x => x) [1%float; 2%float] [1%float; 3%float]
  = Ok 50%float
  /\ (Forall (fun s => is_finite s = true) [1%float; 2%float] ->
      calculate_snr (fun x => x) [1%float; 2%float] [1%float; 2%float]
      = Ok 100%float).
Proof.
  apply (calculate_snr_capped (fun x => x) [1%float; 2%float] [1%float; 3%float]).
  - reflexivity.
  - vm_compute. discriminate.
Defined.

(** * find_peak_frequency on a single bin *)

Section SingleBin.

Variable cabs : complex -> double.

Lemma double_of_int_zero : double_of_int 0 = 0%float.
Proof. vm_compute. reflexivity. Qed.

(** C9: for a spectrum of exactly one bin the divisor (len - 1) * 2 is zero,
    the peak bin is 0, and the quotient 0 * sample_rate / 0 the function
    returns is NaN, whatever the bin and the sample rate: no frequency. *)
Theorem find_peak_frequency_single_bin (bin : complex) (sample_rate : double) :
  wrap_int ((Z.of_nat (length [bin]) - 1) * 2) = 0 /\
  fst (peak_scan cabs [bin]) = 0 /\
  find_peak_frequency cabs [bin] sample_rate = nan.
Proof.
  assert (Hbin : fst (peak_scan cabs [bin]) = 0).
  { unfold peak_scan.
    change (for_loop 0 (Z.of_nat (length [bin])) ?f ?s) with (f 0 s).
    cbv beta. destruct (ltb _ _); reflexivity. }
  split; [reflexivity|]. split; [exact Hbin|].
  unfold find_peak_frequency. rewrite Hbin.
  change (wrap_int ((Z.of_nat (length [bin]) - 1) * 2)) with 0.
  rewrite double_of_int_zero. apply zero_mul_div_zero.
Qed.

End SingleBin.

(** * generate_test_signal: the number of samples *)

Section Generation.

Variable sin : double -> double.
Variable noise_dist : double -> Z -> double.

Lemma int_of_double_trunc (x : double) (n : Z) :
  int_of_double x = Some n ->
  double_trunc x = Some n /\ INT_MIN <= n <= INT_MAX.
Proof.
  unfold int_of_double. destruct (double_trunc x) as [t|]; [|discriminate].
  destruct (Z.leb_spec INT_MIN t) as [Hlo | Hlo],
           (Z.leb_spec t INT_MAX) as [Hhi | Hhi]; cbn [andb];
    try discriminate.
  intros Heq. inversion Heq. subst. split; [reflexivity | lia].
Qed.

(** The signal of a call whose sample count is not negative. *)
Lemma generate_test_signal_ok frequency sample_rate duration noise_amplitude n :
  int_of_double (sample_rate * duration)%float = Some n -> 0 <= n ->
  generate_test_signal sin noise_dist frequency sample_rate duration
                       noise_amplitude
  = Ok (map (test_sample sin noise_dist frequency sample_rate noise_amplitude)
            (zrange 0 (Z.to_nat n))).
Proof.
  intros Hn Hpos. unfold generate_test_signal. rewrite Hn.
  rewrite vector_new_ok by assumption. cbn [bind].
  unfold for_loop. rewrite Z.sub_0_r.
  set (signal := repeat 0%float (Z.to_nat n)).
  replace (Z.to_nat n) with (length signal) by apply repeat_length.
  apply (f_equal Ok).
  exact (fill_loop_all
           (test_sample sin noise_dist frequency sample_rate noise_amplitude)
           signal).
Qed.

(** C3, as the code has it: for non-negative sample_rate and duration whose
    product, cut to its integer part, is an int n, the signal has n samples:
    the count is the product truncated toward zero, not rounded. *)
Theorem generate_test_signal_length
    (frequency sample_rate duration noise_amplitude : double) (n : Z) :
  (0 <=? sample_rate)%float = true -> (0 <=? duration)%float = true ->
  int_of_double (sample_rate * duration)%float = Some n ->
  exists signal,
    generate_test_signal sin noise_dist frequency sample_rate duration
                         noise_amplitude = Ok signal /\
    Z.of_nat (length signal) = n /\
    double_trunc (sample_rate * duration)%float = Some n.
Proof.
  intros Hr Hd Hn.
  destruct (int_of_double_trunc _ _ Hn) as [Ht _].
  pose proof (mul_nonneg_trunc _ _ _ Hr Hd Ht) as Hpos.
  eexists. split; [apply generate_test_signal_ok; eassumption|].
  split; [|exact Ht]. rewrite length_map, zrange_length. lia.
Qed.

End Generation.

(** C3 read literally fails: 3 samples per second for a quarter of a second
    is 0.75, which rounds to 1, and the signal is empty. *)
Lemma generate_test_signal_round_counterexample :
  exists frequency sample_rate duration noise_amplitude : double,
    (0 <=? sample_rate)%float = true /\ (0 <=? duration)%float = true /\
    double_round (sample_rate * duration)%float = Some 1 /\
    forall sin noise_dist,
      generate_test_signal sin noise_dist frequency sample_rate duration
                           noise_amplitude = Ok [].
Proof.
  exists 10%float, 3%float, 0.25%float, 0%float.
  repeat split; try (vm_compute; reflexivity).
Qed.

Lemma generate_test_signal_length_witness :
  exists signal,
    generate_test_signal (fun x => x) (fun _ _ => 0%float)
                         10%float 3%float 0.75%float 0%float = Ok signal /\
    Z.of_nat (length signal) = 2 /\
    double_trunc (3 * 0.75)%float = Some 2.
Proof.
  apply (generate_test_signal_length (fun x => x) (fun _ _ => 0%float)
           10%float 3%float 0.75%float 0%float 2).
  - vm_compute. reflexivity.
  - vm_compute. reflexivity.
  - vm_compute. reflexivity.
Defined.

(** * apply_lowpass_filter with a single tap *)

Section SingleTap.

Variables sin cos : double -> double.

Lemma is_neg_zero_eq (x : double) : is_neg_zero x = true -> x = (-0)%float.
Proof.
  unfold is_neg_zero. intros H. apply Prim2SF_inj.
  destruct (Prim2SF x) as [[|]| | |]; try discriminate H. reflexivity.
Qed.

Lemma add_zero_l_cases (x : double) :
  (0 + x)%float = x \/ (x = (-0)%float /\ (0 + x)%float = 0%float).
Proof.
  destruct (is_neg_zero x) eqn:E.
  - right. apply is_neg_zero_eq in E. subst x. split; reflexivity.
  - left. to_spec. rewrite Prim2SF_zero. unfold is_neg_zero in E.
    destruct (Prim2SF x) as [[|]|s| |s m e]; try reflexivity. discriminate E.
Qed.

Lemma add_zero_l_nonzero (x : double) : is_zero x = false -> (0 + x)%float = x.
Proof.
  intros H. destruct (add_zero_l_cases x) as [E | [E _]]; [exact E|].
  subst x. discriminate H.
Qed.

(** With one tap the centre is tap 0, and its coefficient normalises to 1. *)
Lemma single_tap_coeffs (cutoff_freq : double) :
  is_finite (2 * cutoff_freq)%float = true ->
  is_zero (2 * cutoff_freq)%float = false ->
  normalize_coeffs
    (map (raw_coeff sin cos cutoff_freq 1 (Z.quot 1 2)) (zrange 0 (Z.to_nat 1)))
  = [1%float].
Proof.
  intros Hf Hz.
  change ([(2 * cutoff_freq / (0 + 2 * cutoff_freq))%float] = [1%float]).
  rewrite add_zero_l_nonzero by assumption.
  rewrite div_diag by assumption. reflexivity.
Qed.

Lemma mac_single_tap (input : list double) (i : Z) :
  0 <= i < Z.of_nat (length input) ->
  mac input [1%float] 1 0 (Z.of_nat (length input)) i
  = (0 + vec_get 0 input i)%float.
Proof.
  intros Hi. unfold mac.
  change (for_loop 0 1 ?f ?s) with (f 0 s). cbv beta zeta.
  rewrite Z.sub_0_r, Z.add_0_r.
  replace ((0 <=? i) && (i <? Z.of_nat (length input))) with true
    by (symmetry; case_bools; lia).
  change (vec_get 0%float [1%float] 0) with 1%float.
  rewrite mul_one_r. reflexivity.
Qed.

(** C10, as the code has it: with num_taps = 1 and a finite nonzero
    cutoff_freq below 2^1023 in magnitude (so that 2.0 * cutoff_freq is
    finite), the single coefficient normalises to exactly 1, whatever sin and
    cos are (the window branch is not taken), and the output is the input
    sample for sample, a sample -0.0 coming out as +0.0. *)
Theorem lowpass_single_tap_identity (input : list double) (cutoff_freq : double) :
  is_finite cutoff_freq = true -> is_zero cutoff_freq = false ->
  (abs cutoff_freq <? 0x1p1023)%float = true ->
  Z.of_nat (length input) <= INT_MAX ->
  filter_design sin cos cutoff_freq 1 = Ok [1%float] /\
  exists output,
    apply_lowpass_filter sin cos input cutoff_freq 1 = Ok output /\
    length output = length input /\
    forall i, (i < length input)%nat ->
      nth i output 0%float = nth i input 0%float \/
      (nth i input 0%float = (-0)%float /\ nth i output 0%float = 0%float).
Proof.
  intros Hf Hz Hlt Hmax.
  destruct (mul_two_finite cutoff_freq Hf Hz Hlt) as [Hf2 Hz2].
  pose proof (single_tap_coeffs cutoff_freq Hf2 Hz2) as Hc.
  split; [rewrite filter_design_ok by lia; rewrite Hc; reflexivity|].
  eexists. split.
  - rewrite apply_lowpass_filter_ok by (assumption || lia).
    rewrite Hc. reflexivity.
  - split; [rewrite length_map, zrange_length; reflexivity|].
    intros i Hi.
    rewrite (nth_indep _ _ (mac input [1%float] 1 (Z.quot 1 2)
                              (Z.of_nat (length input)) 0))
      by (rewrite length_map, zrange_length; exact Hi).
    rewrite (map_nth (mac input [1%float] 1 (Z.quot 1 2)
                        (Z.of_nat (length input)))).
    rewrite zrange_nth by exact Hi.
    change (Z.quot 1 2) with 0. rewrite mac_single_tap by lia.
    unfold vec_get. rewrite Z.add_0_l, Nat2Z.id.
    apply add_zero_l_cases.
Qed.

End SingleTap.

(** C10 read literally fails at the nonzero cutoff 2^1023: 2.0 * cutoff_freq
    overflows to infinity, the coefficient is inf / inf = NaN, and every
    output sample is NaN. *)
Lemma lowpass_single_tap_overflow_counterexample :
  exists (input : list double) (cutoff_freq : double),
    is_zero cutoff_freq = false /\
    forall sin cos,
      apply_lowpass_filter sin cos input cutoff_freq 1 = Ok [nan; nan].
Proof.
  exists [1%float; 2%float], 0x1p1023%float.
  split; [vm_compute; reflexivity | intros; vm_compute; reflexivity].
Qed.

Lemma lowpass_single_tap_identity_witness :
  filter_design (fun x => x) (fun x => x) 0.25%float 1 = Ok [1%float] /\
  exists output,
    apply_lowpass_filter (fun x => x) (fun x => x)
      [1%float; (-0)%float; 3%float] 0.25%float 1 = Ok output /\
    length output = 3%nat /\
    forall i, (i < 3)%nat ->
      nth i output 0%float = nth i [1%float; (-0)%float; 3%float] 0%float \/
      (nth i [1%float; (-0)%float; 3%float] 0%float = (-0)%float /\
       nth i output 0%float = 0%float).
Proof.
  apply (lowpass_single_tap_identity (fun x => x) (fun x => x)
           [1%float; (-0)%float; 3%float] 0.25%float).
  - vm_compute. reflexivity.
  - vm_compute. reflexivity.
  - vm_compute. reflexivity.
  - vm_compute. discriminate.
Defined.

(** * apply_lowpass_filter: the convolution *)

Section Convolution.

Variables sin cos : double -> double.

Lemma add_keeps_not_neg_zero (acc t : double) :
  is_neg_zero acc = false -> is_neg_zero (acc + t)%float = false.
Proof.
  intros H. destruct (is_neg_zero (acc + t)%float) eqn:E; [|reflexivity].
  apply add_neg_zero in E. destruct E as [E _]. congruence.
Qed.

(** Leaving a tap out and adding [+0] for it give the same sum: the
    accumulator starts at [+0] and so is never [-0]. *)
Lemma skip_is_pad (input coeff : list double) (center n : Z) (l : list Z)
    (acc : double) :
  is_neg_zero acc = false ->
  fold_left
    (fun sum j =>
       let input_idx := n - center + j in
       if (0 <=? input_idx) && (input_idx <? Z.of_nat (length input)) then
         (sum + vec_get 0%float input input_idx * vec_get 0%float coeff j)%float
       else sum) l acc
  = fold_left (fun acc j => (acc + padded_term input coeff center n j)%float)
              l acc.
Proof.
  revert acc; induction l as [|j l IH]; intros acc Hacc; [reflexivity|].
  cbn [fold_left]. unfold padded_term at 2. cbv zeta.
  destruct ((0 <=? n - center + j) && (n - center + j <? Z.of_nat (length input))).
  - rewrite (mul_comm (vec_get 0%float coeff j)).
    apply IH. apply add_keeps_not_neg_zero. exact Hacc.
  - rewrite add_zero_r by exact Hacc. apply IH. exact Hacc.
Qed.

Lemma mac_conv_sum (input coeff : list double) (num_taps n : Z) :
  0 <= num_taps ->
  mac input coeff num_taps (Z.quot num_taps 2) (Z.of_nat (length input)) n
  = conv_sum input coeff num_taps n.
Proof.
  intros H. unfold mac, conv_sum, for_loop.
  rewrite for_from_fold, Z.sub_0_r, Z.quot_div_nonneg by lia.
  apply skip_is_pad. reflexivity.
Qed.

Lemma normalize_coeffs_length (filter_coeffs : list double) :
  length (normalize_coeffs filter_coeffs) = length filter_coeffs.
Proof. unfold normalize_coeffs. apply length_map. Qed.

(** C6: for num_taps >= 1 and an input with length + num_taps within int, the
    output has the length of the input, the design gives num_taps
    coefficients, and output[n] is the sum over j in [0, num_taps), in this
    order and from +0.0, of coeff[j] * input[n - center + j] with
    center = num_taps / 2, an index outside the input contributing zero. *)
Theorem lowpass_convolution (input : list double) (cutoff_freq : double)
    (num_taps : Z) :
  1 <= num_taps -> Z.of_nat (length input) + num_taps <= INT_MAX ->
  exists coeff output,
    filter_design sin cos cutoff_freq num_taps = Ok coeff /\
    Z.of_nat (length coeff) = num_taps /\
    apply_lowpass_filter sin cos input cutoff_freq num_taps = Ok output /\
    length output = length input /\
    forall n, (n < length input)%nat ->
      nth n output 0%float = conv_sum input coeff num_taps (Z.of_nat n).
Proof.
  intros Ht Hmax.
  set (coeff := normalize_coeffs
                  (map (raw_coeff sin cos cutoff_freq num_taps (Z.quot num_taps 2))
                       (zrange 0 (Z.to_nat num_taps)))).
  exists coeff. eexists. split; [apply filter_design_ok; lia|].
  split; [subst coeff;
          rewrite normalize_coeffs_length, length_map, zrange_length; lia|].
  split; [apply apply_lowpass_filter_ok; lia|].
  split; [rewrite length_map, zrange_length; reflexivity|].
  intros n Hn. fold coeff.
  set (f := mac input coeff num_taps (Z.quot num_taps 2) (Z.of_nat (length input))).
  rewrite (nth_indep _ _ (f 0)) by (rewrite length_map, zrange_length; exact Hn).
  rewrite (map_nth f), zrange_nth by exact Hn.
  subst f. rewrite Z.add_0_l. apply mac_conv_sum. lia.
Qed.

End Convolution.

Lemma lowpass_convolution_witness :
  exists coeff output,
    filter_design (fun x => x) (fun x => x) 0.25%float 3 = Ok coeff /\
    Z.of_nat (length coeff) = 3 /\
    apply_lowpass_filter (fun x => x) (fun x => x)
      [1%float; 2%float; 3%float; 4%float] 0.25%float 3 = Ok output /\
    length output = 4%nat /\
    forall n, (n < 4)%nat ->
      nth n output 0%float
      = conv_sum [1%float; 2%float; 3%float; 4%float] coeff 3 (Z.of_nat n).
Proof.
  apply (lowpass_convolution (fun x => x) (fun x => x)
           [1%float; 2%float; 3%float; 4%float] 0.25%float 3).
  - lia.
  - vm_compute. discriminate.
Defined.

(** * find_peak_frequency: the peak bin *)

Section Peak.

Variable cabs : complex -> double.

Lemma zrange_snoc lo k : zrange lo (S k) = zrange lo k ++ [lo + Z.of_nat k].
Proof.
  revert lo; induction k; intros lo.
  - cbn. now rewrite Z.add_0_r.
  - change (zrange lo (S (S k))) with (lo :: zrange (lo + 1) (S k)).
    rewrite IHk. cbn [zrange app]. do 3 f_equal. lia.
Qed.

(** The state of the scan once the bins before [k] have been seen. *)
Lemma peak_scan_invariant (fft_output : list complex) (k : nat) :
  Z.of_nat (length fft_output) <= INT_MAX ->
  (forall j, (j < length fft_output)%nat ->
     (0 <=? cabs (nth j fft_output (0%float, 0%float)))%float = true) ->
  (k <= length fft_output)%nat ->
  forall max_bin max_magnitude,
    for_from k 0
      (fun i st =>
         let magnitude := cabs (vec_get (0%float, 0%float) fft_output i) in
         if (snd st <? magnitude)%float then (wrap_int i, magnitude) else st)
      (0, 0%float) = (max_bin, max_magnitude) ->
    (0 <= max_bin /\ (max_bin < Z.of_nat k \/ max_bin = 0)) /\
    (0 <=? max_magnitude)%float = true /\
    (forall j, (j < k)%nat ->
       (cabs (nth j fft_output (0%float, 0%float)) <=? max_magnitude)%float
       = true) /\
    ((0 <? max_magnitude)%float = true ->
       max_magnitude = cabs (nth (Z.to_nat max_bin) fft_output (0%float, 0%float))
       /\ forall j, (j < Z.to_nat max_bin)%nat ->
            (cabs (nth j fft_output (0%float, 0%float)) <? max_magnitude)%float
            = true) /\
    ((0 <? max_magnitude)%float = false -> max_bin = 0).
Proof.
  intros Hmax Hmag. induction k as [|k IH]; intros Hk mb mm Hst.
  - cbn in Hst. inversion Hst; subst.
    repeat split; try reflexivity; try lia; try discriminate.
  - rewrite for_from_fold, zrange_snoc, fold_left_app, <- for_from_fold in Hst.
    destruct (for_from k 0 _ (0, 0%float)) as [mb0 mm0] eqn:E0.
    specialize (IH ltac:(lia) mb0 mm0 eq_refl).
    destruct IH as [[Ha1 Ha2] [Hb [Hc [Hd He]]]].
    cbn [fold_left snd] in Hst. rewrite Z.add_0_l in Hst.
    unfold vec_get in Hst. rewrite Nat2Z.id in Hst.
    assert (Hg : (0 <=? cabs (nth k fft_output (0%float, 0%float)))%float = true)
      by (apply Hmag; lia).
    destruct (leb_not_nan _ _ Hg) as [_ Hgn].
    destruct (leb_not_nan _ _ Hb) as [_ Hmn].
    match type of Hst with
    | (if ?b then _ else _) = _ => destruct b eqn:Hlt
    end; injection Hst as Hmb Hmm; subst mb mm.
    + rewrite wrap_int_small by (unfold INT_MIN, INT_MAX in *; lia).
      pose proof (leb_ltb_trans _ _ _ Hb Hlt) as Hpos.
      split; [lia|]. split; [exact Hg|]. split; [|split].
      * intros j Hj. destruct (Nat.eq_dec j k) as [-> | Hne].
        -- apply leb_refl. exact Hgn.
        -- apply ltb_leb. eapply leb_ltb_trans; [apply Hc; lia | exact Hlt].
      * intros _. rewrite Nat2Z.id. split; [reflexivity|]. intros j Hj.
        eapply leb_ltb_trans; [apply Hc; lia | exact Hlt].
      * intros Hn. exfalso. clear - Hn Hpos. congruence.
    + split; [lia|]. split; [exact Hb|]. split; [|split; assumption].
      intros j Hj. destruct (Nat.eq_dec j k) as [-> | Hne].
      * apply not_ltb_leb; assumption.
      * apply Hc. lia.
Qed.

(** C4: on a spectrum of at most 2^30 bins, each with a magnitude that
    compares non-negative (no NaN), find_peak_frequency returns 0.0 on the
    empty spectrum, and otherwise peak_bin * sample_rate / ((len - 1) * 2)
    where peak_bin is the lowest index attaining the maximum magnitude. *)
Theorem find_peak_frequency_spec (fft_output : list complex)
    (sample_rate : double) :
  Z.of_nat (length fft_output) <= 1073741824 ->
  Forall (fun c => (0 <=? cabs c)%float = true) fft_output ->
  (fft_output = [] ->
   find_peak_frequency cabs fft_output sample_rate = 0%float) /\
  (fft_output <> [] ->
   exists peak_bin,
     is_peak_bin cabs fft_output peak_bin /\
     find_peak_frequency cabs fft_output sample_rate
     = (double_of_int (Z.of_nat peak_bin) * sample_rate
        / double_of_int ((Z.of_nat (length fft_output) - 1) * 2))%float).
Proof.
  intros Hsize Hall. split; [intros ->; reflexivity|]. intros Hne.
  assert (Hmag : forall j, (j < length fft_output)%nat ->
            (0 <=? cabs (nth j fft_output (0%float, 0%float)))%float = true).
  { intros j Hj. rewrite Forall_forall in Hall. apply Hall, nth_In, Hj. }
  assert (Hlen : (1 <= length fft_output)%nat)
    by (destruct fft_output; [congruence | simpl; lia]).
  destruct (peak_scan cabs fft_output) as [mb mm] eqn:Escan.
  pose proof Escan as Hinv. unfold peak_scan, for_loop in Hinv.
  rewrite Z.sub_0_r, Nat2Z.id in Hinv.
  apply peak_scan_invariant in Hinv;
    [| unfold INT_MAX; lia | exact Hmag | lia].
  destruct Hinv as [[Ha1 Ha2] [Hb [Hc [Hd He]]]].
  destruct (leb_not_nan _ _ Hb) as [_ Hmn].
  exists (Z.to_nat mb). split.
  - unfold is_peak_bin. cbv zeta. split; [lia|].
    destruct (0 <? mm)%float eqn:Hpos.
    + destruct (Hd eq_refl) as [Hmm Hbefore]. rewrite <- Hmm.
      split; [exact Hc | exact Hbefore].
    + rewrite (He eq_refl). change (Z.to_nat 0) with 0%nat.
      split; [|intros j Hj; lia].
      intros j Hj. eapply leb_trans; [apply Hc; exact Hj|].
      eapply leb_trans; [| apply Hmag; lia].
      apply not_ltb_leb; [discriminate | exact Hmn | exact Hpos].
  - unfold find_peak_frequency.
    destruct fft_output as [|c rest]; [congruence|].
    rewrite Escan. cbn [fst]. rewrite Z2Nat.id by exact Ha1.
    rewrite wrap_int_small; [reflexivity|].
    unfold INT_MIN, INT_MAX. lia.
Qed.

End Peak.

Lemma find_peak_frequency_spec_witness :
  ([(1%float, 0%float); (3%float, 4%float); (5%float, 0%float)] = [] ->
   find_peak_frequency naive_abs
     [(1%float, 0%float); (3%float, 4%float); (5%float, 0%float)] 1000%float
   = 0%float) /\
  ([(1%float, 0%float); (3%float, 4%float); (5%float, 0%float)] <> [] ->
   exists peak_bin,
     is_peak_bin naive_abs
       [(1%float, 0%float); (3%float, 4%float); (5%float, 0%float)] peak_bin /\
     find_peak_frequency naive_abs
       [(1%float, 0%float); (3%float, 4%float); (5%float, 0%float)] 1000%float
     = (double_of_int (Z.of_nat peak_bin) * 1000
        / double_of_int ((Z.of_nat 3 - 1) * 2))%float).
Proof.
  apply (find_peak_frequency_spec naive_abs
           [(1%float, 0%float); (3%float, 4%float); (5%float, 0%float)]
           1000%float).
  - vm_compute. discriminate.
  - repeat constructor.
Defined.

(** * Further properties of the five functions *)

(** ** generate_test_signal: the samples *)

Section GenerationSamples.

Variable sin : double -> double.
Variable noise_dist : double -> Z -> double.

(** X1: when the sample count n is not negative, sample i of the signal is
    sin(2 pi frequency (i / sample_rate)) + the i-th noise draw, for every
    i < n. *)
Theorem generate_test_signal_samples
    (frequency sample_rate duration noise_amplitude : double) (n : Z) :
  int_of_double (sample_rate * duration)%float = Some n -> 0 <= n ->
  exists signal,
    generate_test_signal sin noise_dist frequency sample_rate duration
                         noise_amplitude = Ok signal /\
    Z.of_nat (length signal) = n /\
    forall i, (i < length signal)%nat ->
      nth i signal 0%float
      = (sin (2 * M_PI * frequency
              * (double_of_int (Z.of_nat i) / sample_rate))
         + noise_dist noise_amplitude (Z.of_nat i))%float.
Proof.
  intros Hn Hpos. eexists.
  split; [apply generate_test_signal_ok; eassumption|].
  rewrite length_map, zrange_length. split; [lia|]. intros i Hi.
  set (f := test_sample sin noise_dist frequency sample_rate noise_amplitude).
  rewrite (nth_indep _ _ (f 0)) by (rewrite length_map, zrange_length; exact Hi).
  rewrite (map_nth f), zrange_nth by exact Hi. reflexivity.
Qed.

End GenerationSamples.

Lemma generate_test_signal_samples_witness :
  exists signal,
    generate_test_signal (fun x => x) (fun a i => (a * double_of_int i)%float)
                         1%float 4%float 0.5%float 0.125%float = Ok signal /\
    Z.of_nat (length signal) = 2 /\
    forall i, (i < length signal)%nat ->
      nth i signal 0%float
      = (2 * M_PI * 1 * (double_of_int (Z.of_nat i) / 4)
         + 0.125 * double_of_int (Z.of_nat i))%float.
Proof.
  apply (generate_test_signal_samples
           (fun x => x) (fun a i => (a * double_of_int i)%float)
           1%float 4%float 0.5%float 0.125%float 2).
  - vm_compute. reflexivity.
  - lia.
Defined.

(** ** compute_fft followed by find_peak_frequency *)

Section FftThenPeak.

Variable cabs : complex -> double.
Variable fftw_out : list double -> Z -> complex.

Lemma find_peak_frequency_nonempty (fft_output : list complex)
    (sample_rate : double) :
  (1 <= length fft_output)%nat ->
  find_peak_frequency cabs fft_output sample_rate
  = (double_of_int (fst (peak_scan cabs fft_output)) * sample_rate
     / double_of_int (wrap_int ((Z.of_nat (length fft_output) - 1) * 2)))%float.
Proof.
  intros H. destruct fft_output; [simpl in H; lia | reflexivity].
Qed.

(** X4: on the spectrum compute_fft makes of a signal of N samples,
    find_peak_frequency divides by 2 * floor(N/2) = N - N mod 2: the number of
    samples when N is even, one less when N is odd. *)
Theorem peak_of_fft_divisor (input : list double) (sample_rate : double) :
  (1 <= length input)%nat -> Z.of_nat (length input) <= INT_MAX ->
  exists spectrum,
    compute_fft fftw_out input = Ok spectrum /\
    find_peak_frequency cabs spectrum sample_rate
    = (double_of_int (fst (peak_scan cabs spectrum)) * sample_rate
       / double_of_int (Z.of_nat (length input)
                        - Z.of_nat (length input) mod 2))%float.
Proof.
  intros H1 Hmax. eexists. split; [apply compute_fft_nonempty; assumption|].
  set (spectrum := map _ _).
  assert (Hlen : length spectrum = (length input / 2 + 1)%nat)
    by (subst spectrum; rewrite length_map, zrange_length; reflexivity).
  rewrite find_peak_frequency_nonempty by lia. rewrite Hlen.
  replace ((Z.of_nat (length input / 2 + 1) - 1) * 2)
    with (Z.of_nat (length input) - Z.of_nat (length input) mod 2).
  - assert (Hm := Z.mod_pos_bound (Z.of_nat (length input)) 2 ltac:(lia)).
    rewrite wrap_int_small by (unfold INT_MIN, INT_MAX in *; lia).
    reflexivity.
  - rewrite Nat2Z.inj_add, Nat2Z.inj_div.
    pose proof (Z.div_mod (Z.of_nat (length input)) 2 ltac:(lia)). simpl Z.of_nat. lia.
Qed.

End FftThenPeak.

Lemma peak_of_fft_divisor_witness :
  exists spectrum,
    compute_fft (fun _ i => (double_of_int i, 0%float))
                [1%float; 2%float; 3%float; 4%float; 5%float] = Ok spectrum /\
    find_peak_frequency naive_abs spectrum 1000%float
    = (double_of_int (fst (peak_scan naive_abs spectrum)) * 1000
       / double_of_int (Z.of_nat 5 - Z.of_nat 5 mod 2))%float.
Proof.
  apply (peak_of_fft_divisor naive_abs (fun _ i => (double_of_int i, 0%float))
           [1%float; 2%float; 3%float; 4%float; 5%float] 1000%float).
  - simpl. lia.
  - vm_compute. discriminate.
Defined.

(** ** apply_lowpass_filter: locality and degenerate cutoffs *)

Section LowpassEdges.

Variables sin cos : double -> double.

Lemma nth_map_zrange {B : Type} (f : Z -> B) (k n : nat) (d : B) :
  (n < k)%nat -> nth n (map f (zrange 0 k)) d = f (Z.of_nat n).
Proof.
  intros Hn.
  rewrite (nth_indep _ _ (f 0)) by (rewrite length_map, zrange_length; exact Hn).
  rewrite (map_nth f), zrange_nth by exact Hn. reflexivity.
Qed.

(** X5: an output sample depends on the input only through the samples under the
    filter window: two inputs of the same length (with length + num_taps
    within int) that agree on the indices n - center + j, j in [0, num_taps),
    have the same output sample n. *)
Theorem lowpass_locality (input input' : list double) (cutoff_freq : double)
    (num_taps : Z) (n : nat) :
  0 <= num_taps -> length input = length input' ->
  Z.of_nat (length input) + num_taps <= INT_MAX -> (n < length input)%nat ->
  (forall j, 0 <= j < num_taps ->
     0 <= Z.of_nat n - num_taps / 2 + j < Z.of_nat (length input) ->
     vec_get 0%float input (Z.of_nat n - num_taps / 2 + j)
     = vec_get 0%float input' (Z.of_nat n - num_taps / 2 + j)) ->
  exists output output',
    apply_lowpass_filter sin cos input cutoff_freq num_taps = Ok output /\
    apply_lowpass_filter sin cos input' cutoff_freq num_taps = Ok output' /\
    nth n output 0%float = nth n output' 0%float.
Proof.
  intros Ht Hlen Hmax Hn Hagree. do 2 eexists.
  split; [apply apply_lowpass_filter_ok; lia|].
  split; [apply apply_lowpass_filter_ok; lia|].
  rewrite <- Hlen, !nth_map_zrange by assumption.
  unfold mac, for_loop. apply for_from_ext. intros j sum Hj.
  rewrite Z.quot_div_nonneg by lia. cbv zeta.
  destruct (Z.leb_spec 0 (Z.of_nat n - num_taps / 2 + j)) as [H0 | H0];
    [|reflexivity].
  destruct (Z.ltb_spec (Z.of_nat n - num_taps / 2 + j) (Z.of_nat (length input)))
    as [H1 | H1]; [|reflexivity].
  cbn [andb]. rewrite Hagree by lia. reflexivity.
Qed.

Lemma Prim2SF_nan : Prim2SF nan = S754_nan.
Proof. vm_compute. reflexivity. Qed.

Lemma is_nan_eq (x : double) : is_nan x = true -> x = nan.
Proof.
  unfold is_nan. rewrite eqb_spec. intros H. apply Prim2SF_inj.
  rewrite Prim2SF_nan. unfold SFeqb, SFcompare in H.
  destruct (Prim2SF x) as [s|[|]| |[|] m e]; try discriminate H;
    try reflexivity;
    rewrite Z.compare_refl, Pos.compare_cont_refl in H; discriminate H.
Qed.

Lemma add_nan_l (x : double) : (nan + x)%float = nan.
Proof. to_spec. rewrite Prim2SF_nan. reflexivity. Qed.

Lemma add_nan_r (x : double) : (x + nan)%float = nan.
Proof.
  to_spec. rewrite Prim2SF_nan. destruct (Prim2SF x); reflexivity.
Qed.

Lemma mul_nan_r (x : double) : (x * nan)%float = nan.
Proof.
  to_spec. rewrite Prim2SF_nan. destruct (Prim2SF x); reflexivity.
Qed.

Lemma div_nan_r (x : double) : (x / nan)%float = nan.
Proof.
  to_spec. rewrite Prim2SF_nan. destruct (Prim2SF x); reflexivity.
Qed.

Lemma zrange_app lo a b : zrange lo (a + b) = zrange lo a ++ zrange (lo + Z.of_nat a) b.
Proof.
  revert lo; induction a; intros lo.
  - cbn. now rewrite Z.add_0_r.
  - cbn [Nat.add zrange app]. rewrite IHa. do 3 f_equal. lia.
Qed.

Lemma zrange_In lo k i : lo <= i < lo + Z.of_nat k -> In i (zrange lo k).
Proof.
  revert lo; induction k; intros lo H; [lia|].
  cbn [zrange In]. destruct (Z.eq_dec lo i) as [-> | Hne]; [now left|].
  right. apply IHk. lia.
Qed.

(** A left-to-right sum that meets a NaN is NaN. *)
Lemma sum_from_nan (l : list double) :
  fold_left (fun sum coeff => (sum + coeff)%float) l nan = nan.
Proof. induction l; [reflexivity|]. cbn [fold_left]. now rewrite add_nan_l. Qed.

Lemma sum_with_nan (l : list double) (acc : double) :
  In nan l -> fold_left (fun sum coeff => (sum + coeff)%float) l acc = nan.
Proof.
  revert acc; induction l as [|a l IH]; intros acc Hin; [destruct Hin|].
  destruct Hin as [Ha | Hin].
  - subst a. cbn [fold_left]. rewrite add_nan_r. apply sum_from_nan.
  - cbn [fold_left]. apply IH. exact Hin.
Qed.

Lemma mac_from_nan (input coeff : list double) (center input_size i : Z)
    (l : list Z) :
  fold_left
    (fun sum j =>
       let input_idx := i - center + j in
       if (0 <=? input_idx) && (input_idx <? input_size) then
         (sum + vec_get 0%float input input_idx * vec_get 0%float coeff j)%float
       else sum) l nan
  = nan.
Proof.
  induction l as [|j l IH]; [reflexivity|]. cbn [fold_left]. cbv zeta.
  destruct (_ && _); [rewrite add_nan_l|]; exact IH.
Qed.

(** With NaN coefficients every output sample under the centre tap is NaN. *)
Lemma mac_nan_coeffs (input coeff : list double) (num_taps center i : Z) :
  0 <= center < num_taps -> 0 <= i < Z.of_nat (length input) ->
  vec_get 0%float coeff center = nan ->
  mac input coeff num_taps center (Z.of_nat (length input)) i = nan.
Proof.
  intros Hc Hi Hnan. unfold mac, for_loop.
  rewrite for_from_fold, Z.sub_0_r.
  replace (Z.to_nat num_taps)
    with (Z.to_nat center + (1 + Z.to_nat (num_taps - center - 1)))%nat by lia.
  rewrite zrange_app, fold_left_app.
  change (1 + ?k)%nat with (S k). cbn [zrange fold_left]. cbv zeta.
  rewrite Z.add_0_l, Z2Nat.id by lia.
  replace (i - center + center) with i by lia.
  replace ((0 <=? i) && (i <? Z.of_nat (length input))) with true
    by (symmetry; case_bools; lia).
  rewrite Hnan, mul_nan_r, add_nan_r. apply mac_from_nan.
Qed.

(** X6: a NaN cutoff_freq does not fail: for num_taps >= 1 the centre coefficient
    2 * NaN poisons the normalising sum, every coefficient becomes NaN, and
    every output sample is NaN. *)
Theorem lowpass_nan_cutoff (input : list double) (cutoff_freq : double)
    (num_taps : Z) :
  1 <= num_taps -> Z.of_nat (length input) + num_taps <= INT_MAX ->
  is_nan cutoff_freq = true ->
  exists output,
    apply_lowpass_filter sin cos input cutoff_freq num_taps = Ok output /\
    length output = length input /\
    forall i, (i < length input)%nat -> nth i output 0%float = nan.
Proof.
  intros Ht Hmax Hnan. apply is_nan_eq in Hnan. subst cutoff_freq.
  eexists. split; [apply apply_lowpass_filter_ok; lia|].
  split; [rewrite length_map, zrange_length; reflexivity|].
  intros i Hi. rewrite nth_map_zrange by exact Hi.
  set (center := Z.quot num_taps 2).
  assert (Hc : 0 <= center < num_taps).
  { subst center. rewrite Z.quot_div_nonneg by lia.
    split; [apply Z.div_pos; lia | apply Z.div_lt_upper_bound; lia]. }
  apply mac_nan_coeffs; [exact Hc | lia |].
  set (raw := map (raw_coeff sin cos nan num_taps center)
                  (zrange 0 (Z.to_nat num_taps))).
  assert (Hin : In nan raw).
  { subst raw. apply in_map_iff. exists center. split.
    - unfold raw_coeff. rewrite Z.sub_diag. cbn [Z.eqb].
      rewrite mul_nan_r. reflexivity.
    - apply zrange_In. lia. }
  unfold normalize_coeffs, for_each. cbv beta zeta.
  replace (fold_left _ raw 0%float) with nan
    by (symmetry; exact (sum_with_nan raw 0%float Hin)).
  unfold vec_get.
  rewrite (nth_indep _ _ (0 / nan)%float)
    by (subst raw; rewrite !length_map, zrange_length; lia).
  rewrite (map_nth (fun coeff => (coeff / nan)%float)). apply div_nan_r.
Qed.

(** X7: with a single tap and a zero cutoff_freq the only coefficient is 0/0:
    the call does not fail, and every output sample is NaN. *)
Theorem lowpass_single_tap_zero_cutoff (input : list double)
    (cutoff_freq : double) :
  Z.of_nat (length input) <= INT_MAX -> is_zero cutoff_freq = true ->
  exists output,
    apply_lowpass_filter sin cos input cutoff_freq 1 = Ok output /\
    length output = length input /\
    forall i, (i < length input)%nat -> nth i output 0%float = nan.
Proof.
  intros Hmax Hz.
  eexists. split; [apply apply_lowpass_filter_ok; lia|].
  split; [rewrite length_map, zrange_length; reflexivity|].
  intros i Hi. rewrite nth_map_zrange by exact Hi.
  change (Z.quot 1 2) with 0.
  apply mac_nan_coeffs; [lia | lia |].
  change ((2 * cutoff_freq / (0 + 2 * cutoff_freq))%float = nan).
  unfold is_zero in Hz. rewrite eqb_spec in Hz.
  change zero with 0%float in Hz. rewrite Prim2SF_zero in Hz.
  to_spec. rewrite Prim2SF_two, Prim2SF_zero, Prim2SF_nan.
  destruct (Prim2SF cutoff_freq) as [[|]|[|]| |[|] m e];
    try discriminate Hz; reflexivity.
Qed.

End LowpassEdges.

Lemma lowpass_locality_witness :
  exists output output',
    apply_lowpass_filter (fun x => x) (fun x => x)
      [1%float; 2%float; 3%float] 0.25%float 1 = Ok output /\
    apply_lowpass_filter (fun x => x) (fun x => x)
      [1%float; 7%float; 5%float] 0.25%float 1 = Ok output' /\
    nth 0 output 0%float = nth 0 output' 0%float.
Proof.
  apply (lowpass_locality (fun x => x) (fun x => x)
           [1%float; 2%float; 3%float] [1%float; 7%float; 5%float]
           0.25%float 1 0).
  - lia.
  - reflexivity.
  - vm_compute. discriminate.
  - simpl. lia.
  - intros j Hj Hidx. assert (j = 0) by lia. subst j. reflexivity.
Defined.

Lemma lowpass_nan_cutoff_witness :
  exists output,
    apply_lowpass_filter (fun x => x) (fun x => x)
      [1%float; 2%float] nan 3 = Ok output /\
    length output = 2%nat /\
    forall i, (i < 2)%nat -> nth i output 0%float = nan.
Proof.
  apply (lowpass_nan_cutoff (fun x => x) (fun x => x) [1%float; 2%float] nan 3).
  - lia.
  - vm_compute. discriminate.
  - reflexivity.
Defined.

Lemma lowpass_single_tap_zero_cutoff_witness :
  exists output,
    apply_lowpass_filter (fun x => x) (fun x => x)
      [1%float; 2%float] 0%float 1 = Ok output /\
    length output = 2%nat /\
    forall i, (i < 2)%nat -> nth i output 0%float = nan.
Proof.
  apply (lowpass_single_tap_zero_cutoff (fun x => x) (fun x => x)
           [1%float; 2%float] 0%float).
  - vm_compute. discriminate.
  - reflexivity.
Defined.


(** ** generate_test_signal: small and negative products *)

Lemma valid_digits s m e :
  valid_binary (S754_finite s m e) = true ->
  Z.pos (digits2_pos m) <= 53 /\
  (-1074 < e -> Z.pos (digits2_pos m) = 53).
Proof.
  unfold valid_binary, SpecFloat.valid_binary, bounded, canonical_mantissa.
  intros H. apply andb_true_iff in H as [Hc _]. apply Z.eqb_eq in Hc.
  rewrite fexp_value in Hc. lia.
Qed.

(** A double of magnitude below 1 has integer part 0. *)
Lemma double_trunc_small (p : double) :
  (abs p <? 1)%float = true -> double_trunc p = Some 0.
Proof.
  rewrite ltb_spec, abs_spec, Prim2SF_one. unfold double_trunc.
  pose proof (Prim2SF_valid p) as Hv.
  destruct (Prim2SF p) as [s|s| |s m e]; try discriminate; [reflexivity|].
  intros Hlt. apply SFltb_abs_finite in Hlt.
  destruct (valid_digits s m e Hv) as [Hd Hn].
  pose proof (digits2_pos_bounds m) as [_ Hm].
  assert (He : e <= -53).
  { destruct Hlt as [Hlt | [He Hlt]]; [lia|]. exfalso.
    rewrite Hn in Hm by lia.
    pose proof (digits2_pos_bounds m) as [Hlo _]. rewrite Hn in Hlo by lia.
    change (2 ^ (53 - 1)) with 4503599627370496 in Hlo. lia. }
  assert (Hz : Z.shiftl (Z.pos m) e = 0).
  { rewrite Z.shiftl_div_pow2 by lia. apply Z.div_small. split; [lia|].
    eapply Z.lt_le_trans; [exact Hm|]. apply Z.pow_le_mono_r; lia. }
  cbv zeta. rewrite Hz. destruct s; reflexivity.
Qed.

Lemma key_minus_one : key (-1)%float = (-1, 52, Z.neg 4503599627370496).
Proof. vm_compute. reflexivity. Qed.

Lemma key_int_min : key (-2147483648)%float = (-1, 21, Z.neg 4503599627370496).
Proof. vm_compute. reflexivity. Qed.

(** A double between -2^31 and -1 has an integer part in [INT_MIN, -1]. *)
Lemma double_trunc_negative (p : double) :
  (p <=? -1)%float = true -> (-2147483648 <=? p)%float = true ->
  exists t, double_trunc p = Some t /\ INT_MIN <= t <= -1.
Proof.
  intros Hhi Hlo.
  destruct (leb_not_nan _ _ Hhi) as [Hp Hm1].
  destruct (leb_not_nan _ _ Hlo) as [Hmin _].
  apply leb_key in Hhi; [|assumption|assumption].
  apply leb_key in Hlo; [|assumption|assumption].
  rewrite key_minus_one in Hhi. rewrite key_int_min in Hlo.
  unfold key in Hhi, Hlo. unfold double_trunc.
  pose proof (Prim2SF_valid p) as Hv.
  destruct (Prim2SF p) as [s|[|]| |[|] m e]; cbn [SFkey] in Hhi, Hlo;
    unfold lex_le, lex_lt in Hhi, Hlo;
    try (exfalso; destruct Hhi as [Hhi | Hhi]; [lia | discriminate Hhi]);
    try (exfalso; destruct Hlo as [Hlo | Hlo]; [lia | discriminate Hlo]).
  assert (He : -52 <= e <= -21 /\ (e = -21 -> Z.pos m <= 4503599627370496)).
  { destruct Hhi as [Hhi | Hhi]; [|inversion Hhi];
      (destruct Hlo as [Hlo | Hlo]; [|inversion Hlo]); lia. }
  destruct He as [He He21].
  destruct (valid_digits true m e Hv) as [_ Hn].
  pose proof (digits2_pos_bounds m) as [Hmlo Hmhi].
  rewrite Hn in Hmlo, Hmhi by lia.
  change (2 ^ (53 - 1)) with 4503599627370496 in Hmlo.
  change (2 ^ 53) with 9007199254740992 in Hmhi.
  eexists. split; [reflexivity|]. cbv zeta.
  rewrite Z.shiftl_div_pow2 by lia.
  assert (Hp21 : 2 ^ 21 <= 2 ^ (- e)) by (apply Z.pow_le_mono_r; lia).
  assert (Hp52 : 2 ^ (- e) <= 2 ^ 52) by (apply Z.pow_le_mono_r; lia).
  change (2 ^ 21) with 2097152 in Hp21.
  change (2 ^ 52) with 4503599627370496 in Hp52.
  assert (H1 : 1 <= Z.pos m / 2 ^ (- e)) by (apply Z.div_le_lower_bound; lia).
  assert (H2 : Z.pos m / 2 ^ (- e) <= 2147483648).
  { destruct (Z.eq_dec e (-21)) as [-> | Hne].
    - change (2 ^ (- -21)) with 2097152.
      apply Z.div_le_upper_bound; [lia|]. specialize (He21 eq_refl). lia.
    - assert (Hp22 : 2 ^ 22 <= 2 ^ (- e)) by (apply Z.pow_le_mono_r; lia).
      change (2 ^ 22) with 4194304 in Hp22.
      apply Z.div_le_upper_bound; lia. }
  unfold INT_MIN. lia.
Qed.

Section GenerationEdges.

Variable sin : double -> double.
Variable noise_dist : double -> Z -> double.

(** X2: when the product sample_rate * duration is below 1 in magnitude, also
    when it is negative, the count is 0 and generate_test_signal returns the
    empty signal without failing. *)
Theorem generate_test_signal_small_product
    (frequency sample_rate duration noise_amplitude : double) :
  (abs (sample_rate * duration) <? 1)%float = true ->
  generate_test_signal sin noise_dist frequency sample_rate duration
                       noise_amplitude = Ok [].
Proof.
  intros H. apply double_trunc_small in H.
  rewrite (generate_test_signal_ok sin noise_dist _ _ _ _ 0); [reflexivity| |lia].
  unfold int_of_double. rewrite H. reflexivity.
Qed.

(** X3: when the product sample_rate * duration lies between -2^31 and -1, the
    count is a negative int and the constructor of the signal vector throws
    std::length_error. *)
Theorem generate_test_signal_negative_product
    (frequency sample_rate duration noise_amplitude : double) :
  (sample_rate * duration <=? -1)%float = true ->
  (-2147483648 <=? sample_rate * duration)%float = true ->
  generate_test_signal sin noise_dist frequency sample_rate duration
                       noise_amplitude = Throw length_error.
Proof.
  intros Hhi Hlo.
  destruct (double_trunc_negative _ Hhi Hlo) as [t [Ht [Hmin Hneg]]].
  unfold generate_test_signal, int_of_double. rewrite Ht.
  replace ((INT_MIN <=? t) && (t <=? INT_MAX)) with true
    by (symmetry; unfold INT_MAX; case_bools; lia).
  rewrite vector_new_negative by lia. reflexivity.
Qed.

End GenerationEdges.

Lemma generate_test_signal_small_product_witness :
  generate_test_signal (fun x => x) (fun _ _ => 0%float)
                       10%float 2%float (-0.25)%float 0%float = Ok [].
Proof.
  apply (generate_test_signal_small_product (fun x => x) (fun _ _ => 0%float)
           10%float 2%float (-0.25)%float 0%float).
  vm_compute. reflexivity.
Defined.

Lemma generate_test_signal_negative_product_witness :
  generate_test_signal (fun x => x) (fun _ _ => 0%float)
                       10%float 1000%float (-1)%float 0%float
  = Throw length_error.
Proof.
  apply (generate_test_signal_negative_product
           (fun x => x) (fun _ _ => 0%float)
           10%float 1000%float (-1)%float 0%float).
  - vm_compute. reflexivity.
  - vm_compute. reflexivity.
Defined.

(** ** calculate_snr: the argument of log10 *)












(** ** apply_lowpass_filter and calculate_snr together *)

Section FilterThenSnr.

Variables sin cos log10 : double -> double.

Lemma single_tap_output (input : list double) (cutoff_freq : double) :
  is_finite cutoff_freq = true -> is_zero cutoff_freq = false ->
  (abs cutoff_freq <? 0x1p1023)%float = true ->
  Z.of_nat (length input) <= INT_MAX ->
  apply_lowpass_filter sin cos input cutoff_freq 1
  = Ok (map (fun x => (0 + x)%float) input).
Proof.
  intros Hf Hz Hlt Hmax.
  destruct (mul_two_finite cutoff_freq Hf Hz Hlt) as [Hf2 Hz2].
  rewrite apply_lowpass_filter_ok by (assumption || lia).
  rewrite (single_tap_coeffs sin cos cutoff_freq Hf2 Hz2).
  apply (f_equal Ok). apply nth_ext with (d := 0%float) (d' := (0 + 0)%float).
  - now rewrite !length_map, zrange_length.
  - intros n Hn. rewrite length_map, zrange_length in Hn.
    rewrite nth_map_zrange by exact Hn.
    rewrite (map_nth (fun x => (0 + x)%float)).
    change (Z.quot 1 2) with 0. rewrite mac_single_tap by lia.
    unfold vec_get. now rewrite Nat2Z.id.
Qed.

Lemma pass_minus_self (x : double) :
  is_finite x = true -> (0 + x - x)%float = 0%float.
Proof.
  intros H. destruct (add_zero_l_cases x) as [E | [E1 E2]].
  - rewrite E. apply sub_diag. exact H.
  - rewrite E2, E1. reflexivity.
Qed.

Lemma noise_of_single_tap (x : list double) :
  Forall (fun s => is_finite s = true) x ->
  sum_squared_differences x (map (fun y => (0 + y)%float) x) = 0%float.
Proof.
  unfold sum_squared_differences. induction 1 as [|a l Ha _ IH]; [reflexivity|].
  cbn [map combine fold_left fst snd]. rewrite (pass_minus_self a Ha).
  replace (0 + 0 * 0)%float with 0%float by reflexivity. exact IH.
Qed.

(** X9: filtering a signal of finite samples with one tap and measuring the
    result against the signal gives the sentinel 100.0: the one-tap filter
    adds no noise (cutoff_freq finite, nonzero, below 2^1023 in magnitude). *)
Theorem snr_of_single_tap_filter (input : list double) (cutoff_freq : double) :
  is_finite cutoff_freq = true -> is_zero cutoff_freq = false ->
  (abs cutoff_freq <? 0x1p1023)%float = true ->
  Z.of_nat (length input) <= INT_MAX ->
  Forall (fun s => is_finite s = true) input ->
  exists filtered,
    apply_lowpass_filter sin cos input cutoff_freq 1 = Ok filtered /\
    calculate_snr log10 input filtered = Ok 100%float.
Proof.
  intros Hf Hz Hlt Hmax Hfin. eexists.
  split; [apply single_tap_output; assumption|].
  unfold calculate_snr. rewrite length_map, Nat.eqb_refl. cbn [negb].
  rewrite int_of_size_t_small by assumption.
  rewrite noise_power_sum by (now rewrite length_map).
  rewrite noise_of_single_tap by assumption. reflexivity.
Qed.

End FilterThenSnr.

Lemma snr_of_single_tap_filter_witness :
  exists filtered,
    apply_lowpass_filter (fun x => x) (fun x => x)
      [1%float; (-0)%float; 3%float] 0.25%float 1 = Ok filtered /\
    calculate_snr (fun x => x) [1%float; (-0)%float; 3%float] filtered
    = Ok 100%float.
Proof.
  apply (snr_of_single_tap_filter (fun x => x) (fun x => x) (fun x => x)
           [1%float; (-0)%float; 3%float] 0.25%float).
  - vm_compute. reflexivity.
  - vm_compute. reflexivity.
  - vm_compute. reflexivity.
  - vm_compute. discriminate.
  - repeat constructor.
Defined.

(** ** apply_lowpass_filter on a constant signal *)

Section ConstantInput.

Variables sin cos : double -> double.

Lemma mul_one_l (x : double) : (1 * x)%float = x.
Proof. rewrite mul_comm. apply mul_one_r. Qed.

Lemma nth_repeat_one (L n : nat) :
  (n < L)%nat -> nth n (repeat 1%float L) 0%float = 1%float.
Proof.
  revert n; induction L; intros n H; [lia|].
  destruct n; [reflexivity|]. cbn [repeat nth]. apply IHL. lia.
Qed.

(** X10: away from the two edges, where the whole window lies inside the signal,
    every output sample of the filter on the constant signal 1.0 is the
    left-to-right sum of the normalised coefficients: the DC gain. *)
Theorem lowpass_constant_interior (L : nat) (cutoff_freq : double)
    (num_taps : Z) (n : nat) :
  1 <= num_taps -> Z.of_nat L + num_taps <= INT_MAX ->
  num_taps / 2 <= Z.of_nat n ->
  Z.of_nat n - num_taps / 2 + num_taps <= Z.of_nat L ->
  exists coeff output,
    filter_design sin cos cutoff_freq num_taps = Ok coeff /\
    apply_lowpass_filter sin cos (repeat 1%float L) cutoff_freq num_taps
    = Ok output /\
    nth n output 0%float
    = fold_left (fun sum c => (sum + c)%float) coeff 0%float.
Proof.
  intros Ht Hmax Hlo Hhi.
  assert (Hc : 0 <= num_taps / 2 < num_taps)
    by (split; [apply Z.div_pos; lia | apply Z.div_lt_upper_bound; lia]).
  set (coeff := normalize_coeffs
                  (map (raw_coeff sin cos cutoff_freq num_taps (Z.quot num_taps 2))
                       (zrange 0 (Z.to_nat num_taps)))).
  assert (Hlen : length coeff = Z.to_nat num_taps)
    by (subst coeff; rewrite normalize_coeffs_length, length_map, zrange_length;
        reflexivity).
  exists coeff. eexists. split; [apply filter_design_ok; lia|].
  split; [apply apply_lowpass_filter_ok; rewrite ?repeat_length; lia|].
  rewrite repeat_length. fold coeff.
  rewrite nth_map_zrange by lia.
  pose proof (for_loop_read (A := double) (fun sum c => (sum + c)%float)
                0%float coeff 0%float) as Hr.
  unfold for_loop in Hr. rewrite Z.sub_0_r, Nat2Z.id, Hlen in Hr.
  etransitivity; [| exact Hr]. clear Hr.
  unfold mac, for_loop. rewrite Z.sub_0_r.
  apply for_from_ext. intros j sum Hj.
  rewrite Z.quot_div_nonneg by lia. cbv zeta.
  replace ((0 <=? Z.of_nat n - num_taps / 2 + j)
           && (Z.of_nat n - num_taps / 2 + j <? Z.of_nat L)) with true
    by (symmetry; case_bools; lia).
  unfold vec_get at 1. rewrite nth_repeat_one by lia.
  rewrite mul_one_l. reflexivity.
Qed.

End ConstantInput.

Lemma lowpass_constant_interior_witness :
  exists coeff output,
    filter_design (fun x => x) (fun x => x) 0.25%float 3 = Ok coeff /\
    apply_lowpass_filter (fun x => x) (fun x => x)
      (repeat 1%float 5) 0.25%float 3 = Ok output /\
    nth 2 output 0%float
    = fold_left (fun sum c => (sum + c)%float) coeff 0%float.
Proof.
  apply (lowpass_constant_interior (fun x => x) (fun x => x) 5 0.25%float 3 2).
  - lia.
  - vm_compute. discriminate.
  - vm_compute. discriminate.
  - vm_compute. discriminate.
Defined.
